(** * dynogels: paginated execution and batched key lookups

    A shallow embedding of [lib/utils.js] ([mergeResults],
    [paginatedRequest], [streamRequest]) and of [lib/batch.js]
    ([buckets], [paginatedRequest], [getItems]), with the properties
    of the pagination engine and of the batch-get engine proved
    about them.

    Conventions of the embedding.
    - A JavaScript property that may be missing ([undefined] or [null])
      is an [option]; the test [if (x)] on such a property is the test
      "is [Some]".  Cursors, capacity objects and item arrays are
      objects, hence truthy whenever present.
    - [Count] and [ScannedCount] are integers ([Z]); [CapacityUnits]
      is a rational ([Q]), since the store reports half units; the
      comparison [=== 0] is [Qeq_bool _ 0] there.
    - A call to the gateway is a transition of an explicit gateway
      state: [run : G -> Request -> G * Outcome].  A promise that is
      rejected is the outcome [Rejected err].
    - The [while] loops around gateway calls have no bound in the
      source; their embeddings take a [fuel] argument counting gateway
      calls, and answer [Pending] when it is used up. *)

From Stdlib Require Import ZArith QArith Lia.
From stdpp Require Import base option list gmap strings.
Close Scope Q_scope.

(** ** Errors and outcomes of asynchronous calls *)

(** An error object of the gateway; [retryable] is the flag the engine
    tests ([err.retryable]). *)
Record Error := mkError {
  retryable : bool;
  message : string
}.

(** What awaiting a promise gives: its value, or the error it was
    rejected with. *)
Inductive Outcome (A : Type) : Type :=
| Resolved (a : A)
| Rejected (err : Error).
Arguments Resolved {A} a.
Arguments Rejected {A} err.

(** How far a whole asynchronous call got: it returned a value, it was
    rejected with an error, or it is still waiting for the gateway. *)
Inductive Completion (A : Type) : Type :=
| Returned (a : A)
| Threw (err : Error)
| Pending.
Arguments Returned {A} a.
Arguments Threw {A} err.
Arguments Pending {A}.

(** A gateway that answers from a script, one outcome per call, whatever
    the request (the test suites' [onCall(n)] stubs); once the script is
    used up it rejects with [exhausted]. *)
Definition scripted {Req A : Type} (exhausted : Error)
  (script : list (Outcome A)) (_ : Req) : list (Outcome A) * Outcome A :=
  match script with
  | out :: rest => (rest, out)
  | [] => ([], Rejected exhausted)
  end.

Definition Zsum (l : list Z) : Z := foldr Z.add 0%Z l.
Definition Qsum (l : list Q) : Q := foldr Qplus 0%Q l.

Module Utils.

Section Engine.

Context {Item Cursor Body G : Type}.

(** *** Pages and the aggregate result *)

(** [resp.ConsumedCapacity], when the store sends it. *)
Record PageCapacity := mkPageCapacity {
  pcCapacityUnits : option Q
}.

(** One response of the gateway to a query or scan request. *)
Record Page := mkPage {
  pItems : option (list Item);
  pCount : option Z;
  pScannedCount : option Z;
  pConsumedCapacity : option PageCapacity;
  pLastEvaluatedKey : option Cursor
}.

(** The accumulator [result] of [mergeResults] while the reduction
    runs: every counter is present. *)
Record Memo := mkMemo {
  mItems : list Item;
  mCapacityUnits : Q;
  mCount : Z;
  mScannedCount : Z;
  mLastEvaluatedKey : option Cursor
}.

Record Capacity := mkCapacity {
  CapacityUnits : Q;
  TableName : string
}.

(** The object [mergeResults] returns: [ConsumedCapacity] and
    [ScannedCount] may have been deleted from it. *)
Record Result := mkResult {
  Items : list Item;
  ConsumedCapacity : option Capacity;
  Count : Z;
  ScannedCount : option Z;
  LastEvaluatedKey : option Cursor
}.

(** [x || 0] for a number that may be missing. *)
Definition orZero (x : option Z) : Z := default 0%Z x.
Definition orZeroQ (x : option Q) : Q := default 0%Q x.

(** The callback of [_.reduce] in [mergeResults]; a [null] entry of
    [responses] is the [None] case. *)
Definition mergeStep (memo : Memo) (resp : option Page) : Memo :=
  match resp with
  | None => memo
  | Some resp =>
      {| mCount := mCount memo + orZero (pCount resp);
         mScannedCount := mScannedCount memo + orZero (pScannedCount resp);
         mCapacityUnits :=
           match pConsumedCapacity resp with
           | Some cc => Qplus (mCapacityUnits memo) (orZeroQ (pcCapacityUnits cc))
           | None => mCapacityUnits memo
           end;
         mItems :=
           match pItems resp with
           | Some items => mItems memo ++ items
           | None => mItems memo
           end;
         mLastEvaluatedKey :=
           match pLastEvaluatedKey resp with
           | Some k => Some k
           | None => mLastEvaluatedKey memo
           end |}
  end.

Definition initialMemo : Memo :=
  {| mItems := []; mCapacityUnits := 0%Q; mCount := 0%Z;
     mScannedCount := 0%Z; mLastEvaluatedKey := None |}.

(** [utils.mergeResults(responses, tableName)]. *)
Definition mergeResults (responses : list (option Page)) (tableName : string)
  : Result :=
  let merged := fold_left mergeStep responses initialMemo in
  {| Items := mItems merged;
     ConsumedCapacity :=
       if Qeq_bool (mCapacityUnits merged) 0%Q then None
       else Some {| CapacityUnits := mCapacityUnits merged;
                    TableName := tableName |};
     Count := mCount merged;
     ScannedCount :=
       if Z.eqb (mScannedCount merged) 0 then None
       else Some (mScannedCount merged);
     LastEvaluatedKey := mLastEvaluatedKey merged |}.

(** What a page contributes to each aggregate field. *)
Definition pageItems (p : Page) : list Item := default [] (pItems p).
Definition pageCount (p : Page) : Z := orZero (pCount p).
Definition pageScanned (p : Page) : Z := orZero (pScannedCount p).
Definition pageUnits (p : Page) : Q :=
  match pConsumedCapacity p with
  | Some cc => orZeroQ (pcCapacityUnits cc)
  | None => 0%Q
  end.

(** The cursor of the last page that has one. *)
Definition lastCursor (pages : list Page) : option Cursor :=
  last (omap pLastEvaluatedKey pages).

(** The pages among the responses (the entries that are not [null]). *)
Definition mergedPages (responses : list (option Page)) : list Page :=
  omap id responses.

(** *** The request-state holder

    [lib/op.js], the base of [Scan] and [Query], is not among the
    sources; the engine uses its [buildRequest], [startKey] and
    [clearStartKey] and reads [options.loadAll] and
    [table.tableName()]. *)

(** Modelled from the spec: the request document of op.js, which holds
    [TableName], the optional [ExclusiveStartKey] ("opaque cursor,
    present only mid-pagination") and, as [rBody], everything else
    (expressions, aliases, scan segments). *)
Record Request := mkRequest {
  rTableName : string;
  ExclusiveStartKey : option Cursor;
  rBody : Body
}.

(** Modelled from the spec: the state of an op.js operation as the engine
    sees it: the table's name, [options.loadAll], and the request being
    accumulated (its start key and the rest). *)
Record Op := mkOp {
  opTableName : string;
  loadAll : bool;
  opStartKey : option Cursor;
  opBody : Body
}.

(** Modelled from the spec: [buildRequest() -> Request] of op.js, a
    snapshot of the accumulated request. *)
Definition buildRequest (op : Op) : Request :=
  {| rTableName := opTableName op;
     ExclusiveStartKey := opStartKey op;
     rBody := opBody op |}.

(** Modelled from the spec: [startKey(cursor)] of op.js, "set it as the
    next request's start key". *)
Definition startKey (k : Cursor) (op : Op) : Op :=
  {| opTableName := opTableName op; loadAll := loadAll op;
     opStartKey := Some k; opBody := opBody op |}.

(** Modelled from the spec: [clearStartKey()] of op.js. *)
Definition clearStartKey (op : Op) : Op :=
  {| opTableName := opTableName op; loadAll := loadAll op;
     opStartKey := None; opBody := opBody op |}.

(** *** [utils.paginatedRequest] *)

(** The gateway function handed to the engine ([runRequestFunc], for
    [Scan.prototype.exec] the table's [runScan]). *)
Variable runRequestFunc : G -> Request -> G * Outcome Page.

(** One gateway call: the request sent and what came back. *)
Definition Call : Type := Request * Outcome Page.

(** A run of the engine: how the call ended, the gateway calls it made
    in order, and the operation and gateway states it left. *)
Record Run := mkRun {
  completion : Completion Result;
  calls : list Call;
  finalOp : Op;
  finalGateway : G
}.

Definition logCall (c : Call) (r : Run) : Run :=
  {| completion := completion r; calls := c :: calls r;
     finalOp := finalOp r; finalGateway := finalGateway r |}.

(** The [while] loop of [utils.paginatedRequest], from the state of its
    variables [lastEvaluatedKey], [responses] and [retry]. *)
Fixpoint paginatedLoop (fuel : nat) (g : G) (op : Op)
  (lastEvaluatedKey : option Cursor) (responses : list Page) (retry : bool)
  : Run :=
  if (loadAll op && bool_decide (is_Some lastEvaluatedKey)) || retry then
    match fuel with
    | O => mkRun Pending [] op g
    | S fuel' =>
        let request := buildRequest op in
        let '(g', out) := runRequestFunc g request in
        logCall (request, out)
          match out with
          | Rejected err =>
              if negb (retryable err) then mkRun (Threw err) [] op g'
              else paginatedLoop fuel' g' op lastEvaluatedKey responses true
          | Resolved resp =>
              let lastEvaluatedKey' := pLastEvaluatedKey resp in
              let op' :=
                match lastEvaluatedKey' with
                | Some k => startKey k op
                | None => clearStartKey op
                end in
              paginatedLoop fuel' g' op' lastEvaluatedKey'
                (responses ++ [resp]) false
          end
    end
  else
    mkRun (Returned (mergeResults (Some <$> responses) (opTableName op)))
      [] op g.

(** [utils.paginatedRequest(op, runRequestFunc)]. *)
Definition paginatedRequest (fuel : nat) (g : G) (op : Op) : Run :=
  paginatedLoop fuel g op None [] true.

(** The pages that were fetched, in order. *)
Definition pagesOf (cs : list Call) : list Page :=
  omap (fun c : Call =>
          match c.2 with Resolved p => Some p | Rejected _ => None end) cs.


(** The exchanges with the gateway that the loop can have, and how each
    ends, for an operation with [options.loadAll = la] on table [name]
    whose request, start key apart, is [body]: [Exchange la name body sk
    rs cs c] relates the start key [sk] now set and the pages [rs] held
    to the calls [cs] that follow and the completion [c] they lead to. *)
Inductive Exchange (la : bool) (name : string) (body : Body)
  : option Cursor -> list Page -> list Call -> Completion Result -> Prop :=
| ExPending sk rs :
    Exchange la name body sk rs [] Pending
| ExRetry sk rs err cs c :
    retryable err = true ->
    Exchange la name body sk rs cs c ->
    Exchange la name body sk rs
      ((mkRequest name sk body, Rejected err) :: cs) c
| ExFatal sk rs err :
    retryable err = false ->
    Exchange la name body sk rs
      [(mkRequest name sk body, Rejected err)] (Threw err)
| ExMore sk rs resp k cs c :
    la = true ->
    pLastEvaluatedKey resp = Some k ->
    Exchange la name body (Some k) (rs ++ [resp]) cs c ->
    Exchange la name body sk rs
      ((mkRequest name sk body, Resolved resp) :: cs) c
| ExLast sk rs resp :
    la = false \/ pLastEvaluatedKey resp = None ->
    Exchange la name body sk rs
      [(mkRequest name sk body, Resolved resp)]
      (Returned (mergeResults (Some <$> rs ++ [resp]) name)).

(** *** [utils.streamRequest] *)

(** What can be observed of a stream: a gateway call and its outcome, a
    pause of [wait(millis)], a page pushed to the consumer, the end of the
    stream ([push(null)]) and an emitted error. *)
Inductive StreamEvent : Type :=
| SCall (request : Request) (out : Outcome Page)
| SWait (millis : Z)
| SPush (resp : Page)
| SEnd
| SError (err : Error).

(** [startRead], the [_read] of the stream, from the state of the closure
    variables [lastEvaluatedKey] and [performRequest].  The consumer is
    taken to keep asking: after a page is pushed and the stream has not
    ended, [_read] is called again, and it is not called again once the
    end was pushed or an error was emitted without a push.  [fuel] bounds
    the gateway calls; the events listed are those up to that bound. *)
Fixpoint startRead (fuel : nat) (g : G) (op : Op)
  (lastEvaluatedKey : option Cursor) (performRequest : bool)
  : list StreamEvent :=
  match fuel with
  | O => []
  | S fuel' =>
      if negb performRequest then []
      else
        let op1 :=
          match lastEvaluatedKey with
          | Some k => startKey k op
          | None => op
          end in
        let request := buildRequest op1 in
        let '(g', out) := runRequestFunc g request in
        SCall request out ::
          match out with
          | Rejected err =>
              if negb (retryable err) then [SError err]
              else SWait 1000 ::
                     startRead fuel' g' op1 lastEvaluatedKey performRequest
          | Resolved resp =>
              let lastEvaluatedKey' := pLastEvaluatedKey resp in
              let last :=
                negb (loadAll op1)
                || negb (bool_decide (is_Some lastEvaluatedKey')) in
              let performRequest' :=
                if last then false else performRequest in
              SPush resp ::
                (if last then [SEnd]
                 else startRead fuel' g' op1 lastEvaluatedKey'
                        performRequest')
          end
  end.

(** [utils.streamRequest(op, runRequestFunc)]: the events of the stream
    it returns. *)
Definition streamRequest (fuel : nat) (g : G) (op : Op) : list StreamEvent :=
  startRead fuel g op None true.

(** The start key of the request [startRead] builds. *)
Definition nextStartKey (op : Op) (lek : option Cursor) : option Cursor :=
  match lek with
  | Some k => Some k
  | None => opStartKey op
  end.

(** The events a stream can show, for an operation with
    [options.loadAll = la] on table [name] whose request, start key
    apart, is [body]: [Streamed la name body sk evs] holds of the events
    [evs] that can follow when the start key of the next request is
    [sk]. *)
Inductive Streamed (la : bool) (name : string) (body : Body)
  : option Cursor -> list StreamEvent -> Prop :=
| StIdle sk :
    Streamed la name body sk []
| StRetry sk err evs :
    retryable err = true ->
    Streamed la name body sk evs ->
    Streamed la name body sk
      (SCall (mkRequest name sk body) (Rejected err) :: SWait 1000 :: evs)
| StError sk err :
    retryable err = false ->
    Streamed la name body sk
      [SCall (mkRequest name sk body) (Rejected err); SError err]
| StPage sk resp k evs :
    la = true ->
    pLastEvaluatedKey resp = Some k ->
    Streamed la name body (Some k) evs ->
    Streamed la name body sk
      (SCall (mkRequest name sk body) (Resolved resp) :: SPush resp :: evs)
| StEnd sk resp :
    la = false \/ pLastEvaluatedKey resp = None ->
    Streamed la name body sk
      [SCall (mkRequest name sk body) (Resolved resp); SPush resp; SEnd].

End Engine.

Arguments Page : clear implicits.
Arguments Result : clear implicits.
Arguments Request : clear implicits.
Arguments Op : clear implicits.
Arguments Run : clear implicits.
Arguments StreamEvent : clear implicits.

End Utils.

Module Batch.

Section Engine.

Context {K SKey DItem Attrs Item V G : Type}.

(** *** Request and response documents *)

(** The entry of one table in [RequestItems] or in [UnprocessedKeys]:
    the keys asked for and the remaining attributes of the entry
    ([ConsistentRead], [ProjectionExpression], ...). *)
Record KeysAndAttributes := mkEntry {
  Keys : list SKey;
  Attributes : gmap string V
}.

Record BatchRequest := mkBatchRequest {
  RequestItems : gmap string KeysAndAttributes
}.

Record BatchResponse := mkBatchResponse {
  Responses : option (gmap string (list DItem));
  UnprocessedKeys : option (gmap string KeysAndAttributes)
}.

(** The object [mergeResponses] builds; its [ConsumedCapacity] is always
    the empty array and is left out. *)
Record Merged := mkMerged {
  mergedResponses : gmap string (list DItem)
}.

(** What the engine uses of the [table] and of the [serializer] objects.
    [buildKey key] stands for [serializer.buildKey(key, null,
    table.schema)]. *)
Record Table := mkTable {
  tableName : string;
  initItem : Attrs -> Item;
  runBatchGetItems : G -> BatchRequest -> G * Outcome BatchResponse
}.

Record Serializer := mkSerializer {
  buildKey : K -> SKey;
  deserializeItem : DItem -> Attrs
}.

(** *** The store of the caller's objects

    [getItems] receives references: the key array and the options object
    are cells of a store, and a cell the engine creates is a new cell at
    the end of it. *)
Inductive Cell : Type :=
| ArrayCell (elems : list K)
| OptionsCell (attrs : gmap string V)
| EntryCell (entry : KeysAndAttributes).

Definition alloc (h : list Cell) (c : Cell) : list Cell * nat := (h ++ [c], length h).

(** [_.clone(value)]: a new object with the same contents. *)
Definition clone (h : list Cell) (l : nat) : option (list Cell * nat) :=
  c ← h !! l; Some (alloc h c).

(** [keys.length] *)
Definition arrayLength (h : list Cell) (keys : nat) : nat :=
  match h !! keys with
  | Some (ArrayCell elems) => length elems
  | _ => 0
  end.

(** [keys.splice(0, n)]: removes the first [n] elements from the array in
    place and returns them. *)
Definition splice0 (h : list Cell) (keys : nat) (n : nat) : list Cell * list K :=
  match h !! keys with
  | Some (ArrayCell elems) =>
      (<[keys := ArrayCell (drop n elems)]> h, take n elems)
  | _ => (h, [])
  end.

(** The [while (keys.length)] loop of [internals.buckets]. *)
Fixpoint bucketsLoop (fuel : nat) (h : list Cell) (keys : nat)
  : list Cell * list (list K) :=
  match fuel with
  | O => (h, [])
  | S fuel' =>
      if Nat.eqb (arrayLength h keys) 0 then (h, [])
      else
        let '(h1, bucket) := splice0 h keys 100 in
        let '(h2, rest) := bucketsLoop fuel' h1 keys in
        (h2, bucket :: rest)
  end.

(** [internals.buckets(keys)]; every round of the loop removes at least
    one element, so [keys.length] rounds are enough. *)
Definition buckets (h : list Cell) (keys : nat) : list Cell * list (list K) :=
  bucketsLoop (arrayLength h keys) h keys.

(** [internals.serializeKeys(keys, table, serializer)] *)
Definition serializeKeys (serializer : Serializer) (keys : list K)
  : list SKey :=
  map (buildKey serializer) keys.

(** [internals.buildInitialGetItemsRequest(tableName, keys, options)].
    [_.merge({}, { Keys: keys }, options)] writes into the new object that
    is its first argument; [options] is read, and is taken to have no
    [Keys] of its own. *)
Definition buildInitialGetItemsRequest (h : list Cell) (name : string)
  (keys : list SKey) (options : nat) : option (list Cell * BatchRequest) :=
  match h !! options with
  | Some (OptionsCell attrs) =>
      let entry := {| Keys := keys; Attributes := attrs |} in
      let '(h1, _) := alloc h (EntryCell entry) in
      Some (h1, {| RequestItems := {[ name := entry ]} |})
  | _ => None
  end.

(** [internals.mergeResponses(tableName, responses)] *)
Definition mergeResponses (name : string) (responses : list BatchResponse)
  : Merged :=
  fold_left
    (fun memo resp =>
       match Responses resp with
       | Some tables =>
           match tables !! name with
           | Some items =>
               {| mergedResponses :=
                    <[name := default [] (mergedResponses memo !! name)
                                ++ items]> (mergedResponses memo) |}
           | None => memo
           end
       | None => memo
       end)
    responses {| mergedResponses := {[ name := [] ]} |}.

(** *** [internals.paginatedRequest] *)

(** [moreKeysToProcessFunc] on the value of [response.UnprocessedKeys]:
    [request !== null && !_.isEmpty(request)]. *)
Definition moreKeysToProcess
  (request : option (gmap string KeysAndAttributes)) : bool :=
  match request with
  | None => false
  | Some tables => negb (Nat.eqb (size tables) 0)
  end.

(** The value of the variable [request] after a response: the request to
    send next, [{ RequestItems: response.UnprocessedKeys }], or [None] when
    [moreKeysToProcessFunc] is false and the loop ends. *)
Definition nextRequest (response : BatchResponse) : option BatchRequest :=
  match UnprocessedKeys response with
  | Some tables =>
      if moreKeysToProcess (Some tables)
      then Some {| RequestItems := tables |}
      else None
  | None => None
  end.

Definition BatchCall : Type := BatchRequest * Outcome BatchResponse.

Record BatchRun := mkBatchRun {
  completion : Completion Merged;
  calls : list BatchCall;
  finalGateway : G
}.

Definition logCall (c : BatchCall) (r : BatchRun) : BatchRun :=
  {| completion := completion r; calls := c :: calls r;
     finalGateway := finalGateway r |}.

(** The [while (moreKeysToProcessFunc())] loop of
    [internals.paginatedRequest]; [request] is [Some] exactly when the
    loop goes on. *)
Fixpoint paginatedLoop (fuel : nat) (table : Table) (g : G)
  (request : option BatchRequest) (responses : list BatchResponse)
  : BatchRun :=
  match request with
  | None => mkBatchRun (Returned (mergeResponses (tableName table) responses))
              [] g
  | Some r =>
      match fuel with
      | O => mkBatchRun Pending [] g
      | S fuel' =>
          let '(g', out) := runBatchGetItems table g r in
          logCall (r, out)
            match out with
            | Rejected err =>
                if negb (retryable err) then mkBatchRun (Threw err) [] g'
                else paginatedLoop fuel' table g' request responses
            | Resolved response =>
                paginatedLoop fuel' table g' (nextRequest response)
                  (responses ++ [response])
            end
      end
  end.

(** [internals.paginatedRequest(request, table)] *)
Definition paginatedRequest (fuel : nat) (table : Table) (g : G)
  (request : BatchRequest) : BatchRun :=
  paginatedLoop fuel table g (Some request) [].

(** The end of [internals.initialBatchGetItems]: the items of this table
    in the merged data, deserialized and wrapped. *)
Definition bucketItems (table : Table) (serializer : Serializer)
  (data : Merged) : list Item :=
  map (fun i => initItem table (deserializeItem serializer i))
      (default [] (mergedResponses data !! tableName table)).

(** *** [internals.getItems]: the buckets in flight

    [Promise.map(buckets, mapper)] is given no [concurrency] option: it
    calls the mapper on every bucket in turn, and each call runs up to its
    first gateway request.  From then on a bucket moves when the gateway
    answers its pending request. *)

(** One bucket's [initialBatchGetItems]: waiting for the answer to
    [request] with the [responses] it has, finished with its items, or
    rejected. *)
Inductive Bucket : Type :=
| Running (request : BatchRequest) (responses : list BatchResponse)
| Done (items : list Item)
| Failed (err : Error).

(** The body of the loop of [internals.paginatedRequest] after the answer
    [out] to [request], followed by the end of [initialBatchGetItems]
    when the loop ends. *)
Definition resume (table : Table) (serializer : Serializer)
  (request : BatchRequest) (responses : list BatchResponse)
  (out : Outcome BatchResponse) : Bucket :=
  match out with
  | Rejected err =>
      if negb (retryable err) then Failed err
      else Running request responses
  | Resolved response =>
      match nextRequest response with
      | Some request' => Running request' (responses ++ [response])
      | None =>
          Done (bucketItems table serializer
                  (mergeResponses (tableName table) (responses ++ [response])))
      end
  end.

(** The state of one [getItems] call: its buckets, the requests sent to
    the gateway so far and the answers received (each with the index of
    its bucket), the first fatal error if there was one, and the gateway. *)
Record Pool := mkPool {
  tasks : list Bucket;
  issued : list (nat * BatchRequest);
  answered : list (nat * BatchCall);
  rejection : option Error;
  gateway : G
}.

(** The mapper called on every bucket in turn, each up to its first
    request. *)
Fixpoint startAll (h : list Cell) (table : Table) (serializer : Serializer)
  (bs : list (list K)) (options : nat)
  : option (list Cell * list BatchRequest) :=
  match bs with
  | [] => Some (h, [])
  | bucket :: rest =>
      '(h1, request) ←
        buildInitialGetItemsRequest h (tableName table)
          (serializeKeys serializer bucket) options;
      '(h2, requests) ← startAll h1 table serializer rest options;
      Some (h2, request :: requests)
  end.

(** The state once every bucket has sent its first request. *)
Definition startPool (g : G) (requests : list BatchRequest) : Pool :=
  {| tasks := (fun r => Running r []) <$> requests;
     issued := imap (fun i r => (i, r)) requests;
     answered := [];
     rejection := None;
     gateway := g |}.

(** The body of [getItems] up to the point where every bucket waits for
    the gateway: [_.clone(keys)], [internals.buckets] on the copy, and the
    mapper on each bucket. *)
Definition getItemsBody (table : Table) (serializer : Serializer)
  (h : list Cell) (g : G) (keys : nat) (options : nat)
  : option (list Cell * Pool) :=
  '(h1, copy) ← clone h keys;
  let '(h2, bs) := buckets h1 copy in
  '(h3, requests) ← startAll h2 table serializer bs options;
  Some (h3, startPool g requests).

(** [getItems(keys, options = {})] up to that point.  [options] is [None]
    when the caller gives none: the default [{}] is then a new object. *)
Definition getItemsStart (table : Table) (serializer : Serializer)
  (h : list Cell) (g : G) (keys : nat) (options : option nat)
  : option (list Cell * Pool) :=
  match options with
  | Some o => getItemsBody table serializer h g keys o
  | None =>
      let '(h0, o) := alloc h (OptionsCell ∅) in
      getItemsBody table serializer h0 g keys o
  end.

(** The gateway answers the pending request of bucket [i]. *)
Definition deliver (table : Table) (serializer : Serializer)
  (p : Pool) (i : nat) : Pool :=
  match tasks p !! i with
  | Some (Running request responses) =>
      let '(g', out) := runBatchGetItems table (gateway p) request in
      let task := resume table serializer request responses out in
      {| tasks := <[i := task]> (tasks p);
         issued :=
           issued p ++
             match task with
             | Running request' _ => [(i, request')]
             | _ => []
             end;
         answered := answered p ++ [(i, (request, out))];
         rejection :=
           match rejection p, task with
           | None, Failed err => Some err
           | r, _ => r
           end;
         gateway := g' |}
  | _ => p
  end.

Definition bucketResult (b : Bucket) : option (list Item) :=
  match b with
  | Done items => Some items
  | _ => None
  end.

(** What the caller of [getItems] has: the error of the first bucket that
    failed; else, once every bucket is done, [_.flatten(results)] with the
    results in the order of the buckets; else nothing yet. *)
Definition getItemsCompletion (p : Pool) : Completion (list Item) :=
  match rejection p with
  | Some err => Threw err
  | None =>
      match mapM bucketResult (tasks p) with
      | Some results => Returned (concat results)
      | None => Pending
      end
  end.

(** [getItems(keys, options)] with the gateway answering in the order
    [schedule] gives (an entry names the bucket whose pending request is
    answered next). *)
Definition getItems (table : Table) (serializer : Serializer)
  (h : list Cell) (g : G) (keys : nat) (options : option nat)
  (schedule : list nat) : option (list Cell * Pool) :=
  '(h', p) ← getItemsStart table serializer h g keys options;
  Some (h', fold_left (deliver table serializer) schedule p).

Definition isRunning (b : Bucket) : bool :=
  match b with
  | Running _ _ => true
  | _ => false
  end.

(** The number of requests that wait for an answer: one for each bucket
    that is running. *)
Definition inFlight (p : Pool) : nat :=
  length (List.filter isRunning (tasks p)).

(** The keys a request asks of a table. *)
Definition requestKeys (name : string) (r : BatchRequest) : list SKey :=
  match RequestItems r !! name with
  | Some entry => Keys entry
  | None => []
  end.

(** *** Notions used to state the properties *)

(** The buckets as a function of the keys: runs of [n] keys, the last one
    shorter when the keys do not divide evenly ([fuel] bounds their
    number). *)
Fixpoint chunks {A : Type} (n fuel : nat) (l : list A) : list (list A) :=
  match fuel with
  | O => []
  | S fuel' =>
      match l with
      | [] => []
      | _ => take n l :: chunks n fuel' (drop n l)
      end
  end.

(** The sizes of the buckets for [len] keys. *)
Fixpoint chunkSizes (n fuel len : nat) : list nat :=
  match fuel with
  | O => []
  | S fuel' =>
      match len with
      | O => []
      | _ => Nat.min n len :: chunkSizes n fuel' (len - n)
      end
  end.

(** The caller's [options]: none, or a reference to an options object. *)
Definition optionsOk (h : list Cell) (options : option nat) : Prop :=
  match options with
  | None => True
  | Some o => exists attrs, h !! o = Some (OptionsCell attrs)
  end.

(** A gateway that always answers in full: every key asked of the table
    comes back as an item, and no key is left unprocessed. *)
Definition fullResults (table : Table) : Prop :=
  forall g r, exists g' tables items u,
    runBatchGetItems table g r
    = (g', Resolved {| Responses := Some tables; UnprocessedKeys := u |})
    /\ moreKeysToProcess u = false
    /\ tables !! tableName table = Some items
    /\ length items = length (requestKeys (tableName table) r).

(** The requests of bucket [i] sent so far, and the answers it got. *)
Definition sentTo (i : nat) (p : Pool) : nat :=
  length (List.filter (fun x => Nat.eqb x.1 i) (issued p)).

Definition answeredTo (i : nat) (p : Pool) : nat :=
  length (List.filter (fun x => Nat.eqb x.1 i) (answered p)).

(** 1 when bucket [i] waits for an answer, 0 otherwise. *)
Definition waiting (i : nat) (p : Pool) : nat :=
  match tasks p !! i with
  | Some (Running _ _) => 1
  | _ => 0
  end.

(** The request of a bucket, for the attributes of the options. *)
Definition bucketRequest (table : Table) (serializer : Serializer)
  (attrs : gmap string V) (bucket : list K) : BatchRequest :=
  {| RequestItems :=
       {[ tableName table :=
            {| Keys := serializeKeys serializer bucket;
               Attributes := attrs |} ]} |}.

(** A bucket that still waits for the answer to its first request, or is
    done with as many items as its request has keys. *)
Definition settled (table : Table) (r : BatchRequest) (b : Bucket) : Prop :=
  b = Running r []
  \/ exists items,
       b = Done items
       /\ length items = length (requestKeys (tableName table) r).

(** What holds of a pool all along when the gateway answers in full:
    every bucket is settled, no error was seen, and the requests sent are
    the first ones. *)
Definition fullInv (table : Table) (requests : list BatchRequest) (p : Pool)
  : Prop :=
  Forall2 (settled table) requests (tasks p)
  /\ rejection p = None
  /\ issued p = imap (fun i r => (i, r)) requests.

(** Every request sent has been answered, but the one a bucket is
    waiting for. *)
Definition balanced (p : Pool) : Prop :=
  forall j, sentTo j p = answeredTo j p + waiting j p.

(** The exchanges with the gateway that the loop of
    [internals.paginatedRequest] can have on table [name], and how each
    ends: [BatchExchange name r rs cs c] relates the request [r] to send
    and the responses [rs] held to the calls [cs] that follow and the
    completion [c] they lead to. *)
Inductive BatchExchange (name : string)
  : BatchRequest -> list BatchResponse -> list BatchCall
    -> Completion Merged -> Prop :=
| BxPending r rs :
    BatchExchange name r rs [] Pending
| BxRetry r rs err cs c :
    retryable err = true ->
    BatchExchange name r rs cs c ->
    BatchExchange name r rs ((r, Rejected err) :: cs) c
| BxFatal r rs err :
    retryable err = false ->
    BatchExchange name r rs [(r, Rejected err)] (Threw err)
| BxMore r rs resp r' cs c :
    nextRequest resp = Some r' ->
    BatchExchange name r' (rs ++ [resp]) cs c ->
    BatchExchange name r rs ((r, Resolved resp) :: cs) c
| BxLast r rs resp :
    nextRequest resp = None ->
    BatchExchange name r rs [(r, Resolved resp)]
      (Returned (mergeResponses name (rs ++ [resp]))).

End Engine.

Arguments KeysAndAttributes : clear implicits.
Arguments BatchRequest : clear implicits.
Arguments BatchResponse : clear implicits.
Arguments Merged : clear implicits.
Arguments Table : clear implicits.
Arguments Serializer : clear implicits.
Arguments Cell : clear implicits.
Arguments BatchCall : clear implicits.
Arguments BatchRun : clear implicits.
Arguments Bucket : clear implicits.
Arguments Pool : clear implicits.

End Batch.

(** * Sample tables and runs *)

Module Fixtures.

Import Utils Batch.

(** The error a scripted gateway gives once its script is used up. *)
Definition scriptEnd : Error := {| retryable := false; message := "end" |}.

Definition accountsScan : Op nat unit :=
  {| opTableName := "accounts"; loadAll := true;
     opStartKey := None; opBody := tt |}.

Definition firstPage : Page nat nat :=
  {| pItems := Some [10; 11]; pCount := Some 2%Z; pScannedCount := Some 5%Z;
     pConsumedCapacity := Some {| pcCapacityUnits := Some (1 # 2)%Q |};
     pLastEvaluatedKey := Some 11 |}.

Definition secondPage : Page nat nat :=
  {| pItems := Some [12]; pCount := Some 1%Z; pScannedCount := Some 3%Z;
     pConsumedCapacity := Some {| pcCapacityUnits := Some (1 # 2)%Q |};
     pLastEvaluatedKey := None |}.

Definition twoPages : Run nat nat unit (list (Outcome (Page nat nat))) :=
  Utils.paginatedRequest (scripted scriptEnd) 5
    [Resolved firstPage; Resolved secondPage] accountsScan.

(** A gateway that answers every batch request in full: each key comes
    back as an item, and nothing is left unprocessed. *)
Definition fullGateway (name : string) (g : unit) (r : BatchRequest nat bool)
  : unit * Outcome (BatchResponse nat nat bool) :=
  (g, Resolved {| Responses := Some {[ name := requestKeys name r ]};
                  UnprocessedKeys := None |}).

Definition accounts : Table nat nat nat nat bool unit :=
  {| tableName := "accounts"; initItem := id;
     runBatchGetItems := fullGateway "accounts" |}.

Definition plainSerializer : Serializer nat nat nat nat :=
  {| buildKey := id; deserializeItem := id |}.

(** The same table behind a gateway that answers from a script. *)
Definition scriptedAccounts
  : Table nat nat nat nat bool (list (Outcome (BatchResponse nat nat bool))) :=
  {| tableName := "accounts"; initItem := id;
     runBatchGetItems := scripted scriptEnd |}.

(** The answers of the test "should get unprocessed keys": the first
    leaves the second key unprocessed, the second serves it. *)
Definition leavesSecondKey : BatchResponse nat nat bool :=
  {| Responses := Some {[ "accounts" := [1] ]};
     UnprocessedKeys :=
       Some {[ "accounts" := {| Keys := [2]; Attributes := ∅ |} ]} |}.

Definition servesSecondKey : BatchResponse nat nat bool :=
  {| Responses := Some {[ "accounts" := [2] ]}; UnprocessedKeys := None |}.

Definition throttled : Error :=
  {| retryable := true; message := "RetryableException" |}.

(** A store with an array of two keys. *)
Definition twoKeys : list (Cell nat nat bool) := [ArrayCell [1; 2]].

(** A store with an array of 250 keys. *)
Definition manyKeys : list (Cell nat nat bool) := [ArrayCell (seq 0 250)].

(** A store with an array of three keys and an options object. *)
Definition fewKeys : list (Cell nat nat bool) :=
  [ArrayCell [1; 2; 3]; OptionsCell {[ "ConsistentRead" := true ]}].

(** A store with an empty array of keys. *)
Definition noKeys : list (Cell nat nat bool) := [ArrayCell []].

End Fixtures.

(** * What runs of the engines show *)

Module UtilsViews.

Import Utils.

Section Views.

Context {Item Cursor Body : Type}.

(** The gateway calls among the events of a stream, in order. *)
Definition callsOf (evs : list (StreamEvent Item Cursor Body))
  : list (@Call Item Cursor Body) :=
  omap (fun e => match e with SCall r out => Some (r, out) | _ => None end)
       evs.

(** The pages pushed to the consumer of a stream, in order. *)
Definition pushedPages (evs : list (StreamEvent Item Cursor Body))
  : list (Page Item Cursor) :=
  omap (fun e => match e with SPush p => Some p | _ => None end) evs.

(** A script of gateway outcomes that lets a paginated call with
    [options.loadAll = la] run to its end and no further: retryable
    failures and (with [la]) pages with a cursor, then one page that ends
    the pagination. *)
Fixpoint scriptCompletes (la : bool) (script : list (Outcome (Page Item Cursor)))
  : bool :=
  match script with
  | [] => false
  | Rejected err :: rest => retryable err && scriptCompletes la rest
  | Resolved p :: rest =>
      if la && bool_decide (is_Some (pLastEvaluatedKey p))
      then scriptCompletes la rest
      else match rest with [] => true | _ => false end
  end.

(** The pages of a script. *)
Definition scriptPages (script : list (Outcome (Page Item Cursor)))
  : list (Page Item Cursor) :=
  omap (fun out => match out with Resolved p => Some p | Rejected _ => None end)
       script.

End Views.

End UtilsViews.

Module BatchViews.

Import Batch.

Section Views.

Context {K SKey DItem Attrs Item V G : Type}.

(** The items a response has for a table. *)
Definition responseItems (name : string) (resp : BatchResponse SKey DItem V)
  : list DItem :=
  match Responses resp with
  | Some tables => default [] (tables !! name)
  | None => []
  end.

(** The responses received in a list of calls, in order. *)
Definition responsesOf (cs : list (BatchCall SKey DItem V))
  : list (BatchResponse SKey DItem V) :=
  omap (fun c : BatchCall SKey DItem V =>
          match c.2 with Resolved resp => Some resp | Rejected _ => None end)
       cs.

(** A gateway whose answer depends on the request only. *)
Definition stateless (table : Table SKey DItem Attrs Item V G)
  (answer : BatchRequest SKey V -> Outcome (BatchResponse SKey DItem V))
  : Prop :=
  forall g r, (runBatchGetItems table g r).2 = answer r.

(** What an answer does to a bucket behind such a gateway. *)
Definition advance (table : Table SKey DItem Attrs Item V G)
  (serializer : Serializer K SKey DItem Attrs)
  (answer : BatchRequest SKey V -> Outcome (BatchResponse SKey DItem V))
  (b : Bucket SKey DItem Item V) : Bucket SKey DItem Item V :=
  match b with
  | Running r rs => resume table serializer r rs (answer r)
  | _ => b
  end.

(** No error is recorded unless some bucket failed. *)
Definition rejectionHasCause (p : Pool SKey DItem Item V G) : Prop :=
  rejection p = None
  \/ exists i err, tasks p !! i = Some (Failed err).

End Views.

End BatchViews.

(** * Creating the tables of the models ([lib/createTables.js]) *)

Module CreateTables.

Section Engine.

Context {Opts G : Type}.

(** What the engine reads of the data [describeTable] resolves with:
    [data.Table.TableStatus]. *)
Record Description := mkDescription {
  TableStatus : option string
}.

(** What the engine uses of a model: its name and its three table
    operations, each a transition of the state of the store.
    [describeTable] may resolve with no data ([null]); the options of
    [createTable] are [None] when the configuration has none for the
    model (the default [{}]). *)
Record Model := mkModel {
  tableName : string;
  describeTable : G -> G * Outcome (option Description);
  createTable : option Opts -> G -> G * Outcome unit;
  updateTable : G -> G * Outcome unit
}.

(** [config.$dynogels] *)
Record GlobalOptions := mkGlobalOptions {
  pollingInterval : option Z
}.

(** [config]: the global options and the options of each model. *)
Record Config := mkConfig {
  dynogels : option GlobalOptions;
  modelOptions : gmap string Opts
}.

(** What a run does, in order: the calls to the model with their
    outcomes, and the pauses ([wait(millis)]). *)
Inductive Event : Type :=
| EDescribe (table : string) (out : Outcome (option Description))
| ECreate (table : string) (options : option Opts) (out : Outcome unit)
| EUpdate (table : string) (out : Outcome unit)
| EWait (millis : Z).

Record Run := mkRun {
  completion : Completion unit;
  events : list Event;
  finalStore : G
}.

Definition addEvents (evs : list Event) (r : Run) : Run :=
  {| completion := completion r; events := evs ++ events r;
     finalStore := finalStore r |}.

(** [options.pollingInterval || 1000] *)
Definition interval (options : GlobalOptions) : Z :=
  match pollingInterval options with
  | Some n => if Z.eqb n 0 then 1000%Z else n
  | None => 1000%Z
  end.

(** The error of reading [data.Table] when [describeTable] resolved with
    no data. *)
Definition noData : Error := {| retryable := false; message := "TypeError" |}.

(** The pause before a poll: none before the first ([if (data)]). *)
Definition pause (options : GlobalOptions) (polled : bool) : list Event :=
  if polled then [EWait (interval options)] else [].

(** The loop of [internals.waitTillActive], from the state of [status]
    and of [data] ([polled] once [data] is set); [fuel] bounds the
    polls. *)
Fixpoint waitLoop (fuel : nat) (options : GlobalOptions) (model : Model)
  (g : G) (status : option string) (polled : bool) : Run :=
  if bool_decide (status = Some "ACTIVE") then mkRun (Returned tt) [] g
  else
    match fuel with
    | O => mkRun Pending [] g
    | S fuel' =>
        let '(g', out) := describeTable model g in
        addEvents (pause options polled ++ [EDescribe (tableName model) out])
          match out with
          | Rejected err => mkRun (Threw err) [] g'
          | Resolved None => mkRun (Threw noData) [] g'
          | Resolved (Some data) =>
              waitLoop fuel' options model g' (TableStatus data) true
          end
    end.

(** [internals.waitTillActive(options, model)] *)
Definition waitTillActive (fuel : nat) (options : GlobalOptions)
  (model : Model) (g : G) : Run :=
  waitLoop fuel options model g (Some "PENDING") false.

(** [internals.createTable(model, globalOptions = {}, options = {})];
    the calls to the logger are left out. *)
Definition createModelTable (fuel : nat) (model : Model)
  (globalOptions : option GlobalOptions) (options : option Opts) (g : G)
  : Run :=
  let '(g1, described) := describeTable model g in
  let desc :=
    match described with
    | Resolved data => data
    | Rejected _ => None
    end in
  let global := default {| pollingInterval := None |} globalOptions in
  addEvents [EDescribe (tableName model) described]
    match desc with
    | None =>
        let '(g2, created) := createTable model options g1 in
        addEvents [ECreate (tableName model) options created]
          match created with
          | Rejected err => mkRun (Threw err) [] g2
          | Resolved _ => waitTillActive fuel global model g2
          end
    | Some _ =>
        let '(g2, updated) := updateTable model g1 in
        addEvents [EUpdate (tableName model) updated]
          match updated with
          | Rejected err => mkRun (Threw err) [] g2
          | Resolved _ => waitTillActive fuel global model g2
          end
    end.

(** The module's export: [Promise.each] over [_.keys(models)], one model
    after the other; [models] lists the models by key in that order. *)
Fixpoint createTables (fuel : nat) (models : list (string * Model))
  (config : Config) (g : G) : Run :=
  match models with
  | [] => mkRun (Returned tt) [] g
  | (key, model) :: rest =>
      let r :=
        createModelTable fuel model (dynogels config)
          (modelOptions config !! key) g in
      match completion r with
      | Returned _ =>
          addEvents (events r) (createTables fuel rest config (finalStore r))
      | _ => r
      end
  end.

Definition isCreate (e : Event) : bool :=
  match e with ECreate _ _ _ => true | _ => false end.

Definition isUpdate (e : Event) : bool :=
  match e with EUpdate _ _ => true | _ => false end.

End Engine.

Arguments Model : clear implicits.
Arguments Config : clear implicits.
Arguments Event : clear implicits.
Arguments Run : clear implicits.

End CreateTables.

(** * What runs of the table creation show *)

Module CreateTablesViews.

Import CreateTables.

Section Views.

Context {Opts G : Type}.

(** The outcomes of [n] calls of [describeTable] in a row. *)
Fixpoint describes (model : Model Opts G) (n : nat) (g : G)
  : list (Outcome (option Description)) :=
  match n with
  | O => []
  | S n' =>
      let '(g', out) := describeTable model g in
      out :: describes model n' g'
  end.

(** A description after which [waitTillActive] polls again: there is
    data, and its status is not ['ACTIVE']. *)
Definition stillWaiting (out : Outcome (option Description)) : bool :=
  match out with
  | Resolved (Some data) =>
      negb (bool_decide (TableStatus data = Some "ACTIVE"))
  | _ => false
  end.

(** How the polling ends on a description that ends it. *)
Definition verdict (out : Outcome (option Description)) : Completion unit :=
  match out with
  | Rejected err => Threw err
  | Resolved None => Threw noData
  | Resolved (Some data) =>
      if bool_decide (TableStatus data = Some "ACTIVE")
      then Returned tt else Pending
  end.

(** Polls that follow another poll: each after a pause of [iv] ms. *)
Definition laterPolls (iv : Z) (name : string)
  (outs : list (Outcome (option Description))) : list (Event Opts) :=
  concat ((fun out => [EWait iv; EDescribe name out]) <$> outs).

(** Polls with the given outcomes: a pause of [iv] ms between one and
    the next, none before the first. *)
Definition polls (iv : Z) (name : string)
  (outs : list (Outcome (option Description))) : list (Event Opts) :=
  match outs with
  | [] => []
  | out :: rest => EDescribe name out :: laterPolls iv name rest
  end.


(** The description makes [createTable] create the table: the call
    failed or resolved with no data. *)
Definition missing (out : Outcome (option Description)) : bool :=
  match out with
  | Resolved (Some _) => false
  | _ => true
  end.

(** An event changes a table. *)
Definition changesTable (e : Event Opts) : bool := isCreate e || isUpdate e.

(** The event is a description of table [name] with status ['ACTIVE']. *)
Definition seenActive (name : string) (e : Event Opts) : Prop :=
  exists data,
    e = EDescribe name (Resolved (Some data))
    /\ TableStatus data = Some "ACTIVE".

End Views.

End CreateTablesViews.

Module CreateTablesSamples.

Import CreateTables.

(** A store that answers [describeTable] from a list of outcomes, and in
    which creating and updating succeed. *)
Definition describeFrom (exhausted : Error)
  (g : list (Outcome (option Description)))
  : list (Outcome (option Description)) * Outcome (option Description) :=
  match g with
  | [] => ([], Rejected exhausted)
  | out :: g' => (g', out)
  end.

Definition scriptedModel (name : string)
  : Model unit (list (Outcome (option Description))) :=
  {| tableName := name;
     describeTable := describeFrom {| retryable := false; message := "end" |};
     createTable := fun _ g => (g, Resolved tt);
     updateTable := fun g => (g, Resolved tt) |}.

Definition pending : Outcome (option Description) :=
  Resolved (Some {| TableStatus := Some "PENDING" |}).

Definition active : Outcome (option Description) :=
  Resolved (Some {| TableStatus := Some "ACTIVE" |}).

Definition noOptions : Config unit :=
  {| dynogels := None; modelOptions := ∅ |}.

End CreateTablesSamples.

(** * The requests that create a table and its indexes ([lib/table.js]) *)

Module TableRequests.

(** [params.projection] *)
Record Projection := mkProjection {
  ProjectionType : string;
  NonKeyAttributes : option (list string)
}.

(** The parameters of a local secondary index, as the schema holds
    them. *)
Record LocalIndexParams := mkLocalIndexParams {
  localName : string;
  localRangeKey : string;
  localProjection : option Projection
}.

(** The parameters of a global secondary index, as the schema holds
    them. *)
Record GlobalIndexParams := mkGlobalIndexParams {
  name : string;
  globalHashKey : string;
  globalRangeKey : option string;
  projection : option Projection;
  globalReadCapacity : option Z;
  globalWriteCapacity : option Z
}.

(** What the table reads of its schema.  [secondaryIndexes] and
    [globalIndexes] are objects keyed by index name, listed here in the
    order [_.forEach] visits them; [_modelDatatypes] maps an attribute to
    its DynamoDB type. *)
Record Schema := mkSchema {
  hashKey : string;
  rangeKey : option string;
  secondaryIndexes : list (string * LocalIndexParams);
  globalIndexes : list (string * GlobalIndexParams);
  modelDatatypes : gmap string string
}.

Record AttributeDefinition := mkAttributeDefinition {
  AttributeName : string;
  AttributeType : option string
}.

Inductive KeyType : Type := HASH | RANGE.

Record KeySchemaElement := mkKeySchemaElement {
  keyAttributeName : string;
  keyType : KeyType
}.

Record Throughput := mkThroughput {
  ReadCapacityUnits : Z;
  WriteCapacityUnits : Z
}.

(** An index of the request; a local one has no
    [ProvisionedThroughput]. *)
Record SecondaryIndex := mkSecondaryIndex {
  IndexName : string;
  IndexKeySchema : list KeySchemaElement;
  IndexProjection : Projection;
  IndexThroughput : option Throughput
}.

(** [options.streamSpecification] *)
Record StreamOptions := mkStreamOptions {
  streamEnabled : option bool;
  streamViewType : option string
}.

(** The options of [createTable]. *)
Record CreateOptions := mkCreateOptions {
  readCapacity : option Z;
  writeCapacity : option Z;
  streamSpecification : option StreamOptions
}.

Record StreamSpecification := mkStreamSpecification {
  StreamEnabled : bool;
  StreamViewType : option string
}.

(** The params of the [createTable] request. *)
Record CreateTableParams := mkCreateTableParams {
  AttributeDefinitions : list AttributeDefinition;
  TableName : string;
  KeySchema : list KeySchemaElement;
  ProvisionedThroughput : Throughput;
  LocalSecondaryIndexes : option (list SecondaryIndex);
  GlobalSecondaryIndexes : option (list SecondaryIndex);
  TableStreamSpecification : option StreamSpecification
}.

(** A string key that is there and not empty, as [if (rangeKey)] tests
    it. *)
Definition truthyKey (key : option string) : option string :=
  match key with
  | Some k => if bool_decide (k = EmptyString) then None else Some k
  | None => None
  end.

(** [capacity || 1] *)
Definition orOne (capacity : option Z) : Z :=
  match capacity with
  | Some n => if Z.eqb n 0 then 1%Z else n
  | None => 1%Z
  end.

(** [internals.attributeDefinition(schema, key)] *)
Definition attributeDefinition (schema : Schema) (key : string)
  : AttributeDefinition :=
  let type := modelDatatypes schema !! key in
  {| AttributeName := key;
     AttributeType :=
       if bool_decide (type = Some "DATE") then Some "S" else type |}.

(** [internals.keySchema(hashKey, rangeKey)] *)
Definition keySchema (hash : string) (range : option string)
  : list KeySchemaElement :=
  {| keyAttributeName := hash; keyType := HASH |}
    :: match truthyKey range with
       | Some r => [{| keyAttributeName := r; keyType := RANGE |}]
       | None => []
       end.

Definition allAttributes : Projection :=
  {| ProjectionType := "ALL"; NonKeyAttributes := None |}.

(** [internals.secondaryIndex(schema, params)] *)
Definition secondaryIndex (schema : Schema) (params : LocalIndexParams)
  : SecondaryIndex :=
  {| IndexName := localName params;
     IndexKeySchema := keySchema (hashKey schema) (Some (localRangeKey params));
     IndexProjection := default allAttributes (localProjection params);
     IndexThroughput := None |}.

(** [internals.globalIndex(indexName, params)] *)
Definition globalIndex (indexName : string) (params : GlobalIndexParams)
  : SecondaryIndex :=
  {| IndexName := indexName;
     IndexKeySchema := keySchema (globalHashKey params) (globalRangeKey params);
     IndexProjection := default allAttributes (projection params);
     IndexThroughput :=
       Some {| ReadCapacityUnits := orOne (globalReadCapacity params);
               WriteCapacityUnits := orOne (globalWriteCapacity params) |} |}.

(** [_.find(attributeDefinitions, { AttributeName: key })] finds one. *)
Definition defines (definitions : list AttributeDefinition) (key : string)
  : bool :=
  bool_decide (key ∈ AttributeName <$> definitions).

(** The body of the [_.forEach] over the local indexes, on the two
    arrays it pushes to. *)
Definition localStep (schema : Schema)
  (acc : list AttributeDefinition * list SecondaryIndex)
  (entry : string * LocalIndexParams)
  : list AttributeDefinition * list SecondaryIndex :=
  (acc.1 ++ [attributeDefinition schema (localRangeKey entry.2)],
   acc.2 ++ [secondaryIndex schema entry.2]).

(** The two conditional pushes for the keys of a global index. *)
Definition defineGlobalKeys (schema : Schema) (params : GlobalIndexParams)
  (definitions : list AttributeDefinition) : list AttributeDefinition :=
  let withHash :=
    if defines definitions (globalHashKey params) then definitions
    else definitions ++ [attributeDefinition schema (globalHashKey params)] in
  match truthyKey (globalRangeKey params) with
  | Some r =>
      if defines withHash r then withHash
      else withHash ++ [attributeDefinition schema r]
  | None => withHash
  end.

(** The body of the [_.forEach] over the global indexes. *)
Definition globalStep (schema : Schema)
  (acc : list AttributeDefinition * list SecondaryIndex)
  (entry : string * GlobalIndexParams)
  : list AttributeDefinition * list SecondaryIndex :=
  (defineGlobalKeys schema entry.2 acc.1,
   acc.2 ++ [globalIndex entry.1 entry.2]).

(** The definitions pushed for the keys of the table itself. *)
Definition tableKeyDefinitions (schema : Schema) : list AttributeDefinition :=
  attributeDefinition schema (hashKey schema)
    :: match truthyKey (rangeKey schema) with
       | Some r => [attributeDefinition schema r]
       | None => []
       end.

(** The stream specification of the request. *)
Definition streamOf (options : StreamOptions) : StreamSpecification :=
  let enabled := default false (streamEnabled options) in
  {| StreamEnabled := enabled;
     StreamViewType :=
       if enabled
       then Some (default "NEW_AND_OLD_IMAGES"
                          (truthyKey (streamViewType options)))
       else None |}.

(** An array, if it has an element. *)
Definition ifAny {A} (l : list A) : option (list A) :=
  match l with
  | [] => None
  | _ => Some l
  end.

(** The params [Table.prototype.createTable(options)] sends for a table
    of the given name. *)
Definition createTableParams (schema : Schema) (tableName : string)
  (options : CreateOptions) : CreateTableParams :=
  let locals :=
    fold_left (localStep schema) (secondaryIndexes schema)
      (tableKeyDefinitions schema, []) in
  let globals :=
    fold_left (globalStep schema) (globalIndexes schema) (locals.1, []) in
  {| AttributeDefinitions := globals.1;
     TableName := tableName;
     KeySchema := keySchema (hashKey schema) (rangeKey schema);
     ProvisionedThroughput :=
       {| ReadCapacityUnits := orOne (readCapacity options);
          WriteCapacityUnits := orOne (writeCapacity options) |};
     LocalSecondaryIndexes := ifAny locals.2;
     GlobalSecondaryIndexes := ifAny globals.2;
     TableStreamSpecification := streamOf <$> streamSpecification options |}.

(** What [findMissingGlobalIndexes] reads of the description of a table:
    the names of [data.Table.GlobalSecondaryIndexes], if any. *)
Record TableData := mkTableData {
  describedIndexes : option (list string)
}.

(** [internals.findMissingGlobalIndexes(table, data)]; [data] is [None]
    when it is [null] or [undefined]. *)
Definition findMissingGlobalIndexes (schema : Schema) (data : option TableData)
  : list (string * GlobalIndexParams) :=
  match data with
  | None => globalIndexes schema
  | Some d =>
      let existingIndexNames := default [] (describedIndexes d) in
      List.filter
        (fun entry : string * GlobalIndexParams =>
           negb (bool_decide (name entry.2 ∈ existingIndexNames)))
        (globalIndexes schema)
  end.

(** The names of the attributes a request defines, and of those a key
    schema uses. *)
Definition definedNames (definitions : list AttributeDefinition)
  : list string :=
  AttributeName <$> definitions.

Definition keyNames (keys : list KeySchemaElement) : list string :=
  keyAttributeName <$> keys.

(** The indexes of a request, local and global. *)
Definition indexesOf (params : CreateTableParams) : list SecondaryIndex :=
  default [] (LocalSecondaryIndexes params)
    ++ default [] (GlobalSecondaryIndexes params).

(** The names the request defines before it comes to the global
    indexes: the keys of the table and the range keys of the local
    indexes. *)
Definition tableAndLocalKeys (schema : Schema) : list string :=
  hashKey schema
    :: match truthyKey (rangeKey schema) with
       | Some r => [r]
       | None => []
       end
    ++ ((fun entry : string * LocalIndexParams => localRangeKey entry.2)
          <$> secondaryIndexes schema).

(** The keys of the global indexes. *)
Definition globalKeys (schema : Schema) : list string :=
  concat ((fun entry : string * GlobalIndexParams =>
             keyNames (keySchema (globalHashKey entry.2)
                                 (globalRangeKey entry.2)))
            <$> globalIndexes schema).

End TableRequests.

Module TableUpdates.

Import TableRequests.

(** An element of [GlobalSecondaryIndexUpdates]. *)
Inductive IndexUpdate : Type :=
| Create (index : SecondaryIndex).

(** The params of the [updateTable] request that adds an index. *)
Record UpdateTableParams := mkUpdateTableParams {
  TableName : string;
  AttributeDefinitions : list AttributeDefinition;
  GlobalSecondaryIndexUpdates : list IndexUpdate
}.

(** [_.ceil(units * 1.5)], for a whole number of units. *)
Definition ceilOneAndAHalf (units : Z) : Z := ((3 * units + 1) / 2)%Z.

(** [capacity || fallback] *)
Definition orElse (capacity : option Z) (fallback : Z) : Z :=
  match capacity with
  | Some n => if Z.eqb n 0 then fallback else n
  | None => fallback
  end.

(** The request [internals.syncIndexes] sends for a missing index with
    the given parameters, on a table described with
    [currentWriteThroughput] as its
    [ProvisionedThroughput.WriteCapacityUnits]. *)
Definition indexCreation (schema : Schema) (tableName : string)
  (currentWriteThroughput : Z) (params : GlobalIndexParams)
  : UpdateTableParams :=
  let newIndexWriteThroughput := ceilOneAndAHalf currentWriteThroughput in
  let withCapacity :=
    {| name := name params;
       globalHashKey := globalHashKey params;
       globalRangeKey := globalRangeKey params;
       projection := projection params;
       globalReadCapacity := globalReadCapacity params;
       globalWriteCapacity :=
         Some (orElse (globalWriteCapacity params) newIndexWriteThroughput) |} in
  {| TableName := tableName;
     AttributeDefinitions := defineGlobalKeys schema params [];
     GlobalSecondaryIndexUpdates :=
       [Create (globalIndex (name withCapacity) withCapacity)] |}.

End TableUpdates.

Module TableSamples.

Import TableRequests.

(** The schema of the game scores of the tests: a table keyed by user
    and game, with a global index by game and top score. *)
Definition gameTitleIndex : GlobalIndexParams :=
  {| name := "GameTitleIndex";
     globalHashKey := "gameTitle";
     globalRangeKey := Some "topScore";
     projection := None;
     globalReadCapacity := None;
     globalWriteCapacity := None |}.

Definition gameScores : Schema :=
  {| hashKey := "userId";
     rangeKey := Some "gameTitle";
     secondaryIndexes := [];
     globalIndexes := [("GameTitleIndex", gameTitleIndex)];
     modelDatatypes :=
       {[ "userId" := "S"; "gameTitle" := "S"; "topScore" := "N" ]} |}.

End TableSamples.

(** * Running functions one after the other ([utils.waterfall]) *)

Module Waterfall.

Section Engine.

Context {A G : Type}.

(** The value of a call without argument. *)
Variable undefined : A.

(** The error of calling [fns[0]] when there is none. *)
Definition notAFunction : Error :=
  {| retryable := false; message := "TypeError" |}.

(** The [for] loop of [utils.waterfall]: each function is called with
    the output of the one before. *)
Fixpoint chain (fns : list (A -> G -> G * Outcome A)) (output : A) (g : G)
  : G * Outcome A :=
  match fns with
  | [] => (g, Resolved output)
  | fn :: rest =>
      match fn output g with
      | (g', Resolved output') => chain rest output' g'
      | (g', Rejected err) => (g', Rejected err)
      end
  end.

(** [utils.waterfall(fns)]; each function returns a promise, of which
    the model has the outcome. *)
Definition waterfall (fns : list (A -> G -> G * Outcome A)) (g : G)
  : G * Outcome A :=
  match fns with
  | [] => (g, Rejected notAFunction)
  | fn :: rest =>
      match fn undefined g with
      | (g', Resolved output) => chain rest output g'
      | (g', Rejected err) => (g', Rejected err)
      end
  end.

(** [internals.callBeforeHooks(table, name, startFun)] of [lib/table.js],
    for the listeners registered under the name. *)
Definition callBeforeHooks (listeners : list (A -> G -> G * Outcome A))
  (startFun : A -> G -> G * Outcome A) (g : G) : G * Outcome A :=
  waterfall (startFun :: listeners) g.

End Engine.

End Waterfall.

(** * More sample runs *)

Module Samples.

Import Utils Fixtures.

(** A scan of the accounts table without [loadAll]. *)
Definition accountsPage : Op nat unit :=
  {| opTableName := "accounts"; loadAll := false;
     opStartKey := None; opBody := tt |}.

(** A gateway script: the first page, a throttled attempt, the last
    page. *)
Definition throttledScript : list (Outcome (Page nat nat)) :=
  [Resolved firstPage; Rejected throttled; Resolved secondPage].

Definition onePage : Run nat nat unit (list (Outcome (Page nat nat))) :=
  Utils.paginatedRequest (scripted scriptEnd) 5
    [Resolved firstPage; Resolved secondPage] accountsPage.

End Samples.

(** * Reading a list of calls at one of its elements *)

Lemma nil_eq_split {A} (pre post : list A) x : [] = pre ++ x :: post -> False.
Proof. by destruct pre. Qed.


(** Reads an equation [e1 :: e2 :: evs = pre ++ x :: post]. *)
Ltac split_events pre :=
  destruct pre as [|? pre]; [|destruct pre as [|? pre]]; simplify_eq/=;
  try match goal with
      | H : [_] = pre ++ _ :: _ |- _ =>
          destruct pre as [|? pre]; simplify_eq/=
      end;
  try match goal with
      | H : [] = _ ++ _ :: _ |- _ => by apply nil_eq_split in H
      end.

Ltac induction_streamed H :=
  induction H as [sk|sk err0 evs Hr H IH|sk err0 Hr
                 |sk resp k evs Hla Hk H IH|sk resp Hl].

Lemma snd_imap_pair {A} (l : list A) : forall f : nat -> nat,
  snd <$> imap (fun i x => (f i, x)) l = l.
Proof.
  induction l as [|x l IH]; intros f; [done|].
  rewrite imap_cons, fmap_cons. cbn [snd]. f_equal. apply (IH (f ∘ S)).
Qed.

(** * Properties of the pagination engine *)

Module UtilsFacts.

Import Utils.

Section Merge.

Context {Item Cursor : Type}.

Implicit Types (responses : list (option (Page Item Cursor))).
Implicit Types (memo : @Memo Item Cursor).

Lemma mergedPages_cons_Some p responses :
  mergedPages (Some p :: responses) = p :: mergedPages responses.
Proof. reflexivity. Qed.

Lemma mergedPages_cons_None responses :
  mergedPages (None :: responses) = mergedPages responses.
Proof. reflexivity. Qed.

Lemma mergedPages_Some (pages : list (Page Item Cursor)) :
  mergedPages (Some <$> pages) = pages.
Proof.
  induction pages as [|p pages IH]; [reflexivity|].
  rewrite fmap_cons, mergedPages_cons_Some. by f_equal.
Qed.

Lemma lastCursor_cons p (pages : list (Page Item Cursor)) :
  lastCursor (p :: pages) =
    match lastCursor pages with
    | Some k => Some k
    | None => pLastEvaluatedKey p
    end.
Proof.
  unfold lastCursor. simpl. destruct (pLastEvaluatedKey p) as [k|]; simpl.
  - apply last_cons.
  - destruct (last _); reflexivity.
Qed.

Lemma mergeStep_units memo p :
  (mCapacityUnits (mergeStep memo (Some p))
   == mCapacityUnits memo + pageUnits p)%Q.
Proof.
  destruct p as [items c sc [cc|] k]; unfold pageUnits; simpl; ring.
Qed.

(** The reduction of [mergeResults], from any accumulator. *)
Lemma fold_mergeStep responses memo :
  let pages := mergedPages responses in
  let m := fold_left mergeStep responses memo in
  mItems m = mItems memo ++ concat (pageItems <$> pages)
  ∧ mCount m = (mCount memo + Zsum (pageCount <$> pages))%Z
  ∧ mScannedCount m = (mScannedCount memo + Zsum (pageScanned <$> pages))%Z
  ∧ (mCapacityUnits m == mCapacityUnits memo + Qsum (pageUnits <$> pages))%Q
  ∧ mLastEvaluatedKey m =
      match lastCursor pages with
      | Some k => Some k
      | None => mLastEvaluatedKey memo
      end.
Proof.
  revert memo. induction responses as [|[p|] responses IH]; intros memo.
  - simpl. rewrite app_nil_r, !Z.add_0_r, Qplus_0_r. done.
  - rewrite mergedPages_cons_Some. cbn zeta.
    change (fold_left mergeStep (Some p :: responses) memo)
      with (fold_left mergeStep responses (mergeStep memo (Some p))).
    pose proof (IH (mergeStep memo (Some p))) as H. cbn zeta in H.
    destruct H as (HI & HC & HS & HU & HK).
    rewrite HI, HC, HS, HK. clear HI HC HS HK IH.
    rewrite !fmap_cons, lastCursor_cons.
    repeat split; [simpl .. | | simpl].
    + unfold pageItems. destruct (pItems p); simpl; [by rewrite <- app_assoc|done].
    + unfold pageCount. lia.
    + unfold pageScanned. lia.
    + rewrite HU, mergeStep_units.
      change (Qsum (pageUnits p :: (pageUnits <$> mergedPages responses)))
        with (pageUnits p + Qsum (pageUnits <$> mergedPages responses))%Q.
      ring.
    + destruct (lastCursor (mergedPages responses)); [done|].
      by destruct (pLastEvaluatedKey p).
  - rewrite mergedPages_cons_None. apply IH.
Qed.

Lemma mergeResults_LastEvaluatedKey responses tableName :
  LastEvaluatedKey (mergeResults responses tableName)
  = lastCursor (mergedPages responses).
Proof.
  unfold mergeResults. cbn [LastEvaluatedKey].
  pose proof (fold_mergeStep responses initialMemo) as H. cbn zeta in H.
  destruct H as (_ & _ & _ & _ & ->).
  by destruct (lastCursor _).
Qed.

(** C3.  Whatever the sequence of responses merged, the [Items] of the
    aggregate are the items of the pages concatenated in page order,
    [Count], [ScannedCount] and [ConsumedCapacity.CapacityUnits] are the
    sums over the pages, and [ScannedCount] and [ConsumedCapacity] are
    missing from the aggregate exactly when their sum is zero. *)
Theorem mergeResults_aggregates responses tableName :
  let pages := mergedPages responses in
  let result := mergeResults responses tableName in
  Items result = concat (pageItems <$> pages)
  ∧ Count result = Zsum (pageCount <$> pages)
  ∧ (ScannedCount result = None ↔ Zsum (pageScanned <$> pages) = 0%Z)
  ∧ (∀ n, ScannedCount result = Some n → n = Zsum (pageScanned <$> pages))
  ∧ (ConsumedCapacity result = None
     ↔ (Qsum (pageUnits <$> pages) == 0)%Q)
  ∧ (∀ c, ConsumedCapacity result = Some c →
       (CapacityUnits c == Qsum (pageUnits <$> pages))%Q
       ∧ TableName c = tableName).
Proof.
  cbn zeta. unfold mergeResults.
  pose proof (fold_mergeStep responses initialMemo) as H. cbn zeta in H.
  destruct H as (HI & HC & HS & HU & _).
  cbn [Items Count ScannedCount ConsumedCapacity].
  rewrite HI, HC, HS. cbn [initialMemo mItems mCount mScannedCount app].
  rewrite !Z.add_0_l.
  assert (HU' : (mCapacityUnits (fold_left mergeStep responses initialMemo)
                 == Qsum (pageUnits <$> mergedPages responses))%Q).
  { rewrite HU. cbn [initialMemo mCapacityUnits]. ring. }
  clear HU HI HC HS.
  split_and!.
  - reflexivity.
  - reflexivity.
  - destruct (Z.eqb_spec (Zsum (pageScanned <$> mergedPages responses)) 0);
      [done|]. split; [discriminate|done].
  - destruct (Z.eqb_spec (Zsum (pageScanned <$> mergedPages responses)) 0);
      [discriminate|congruence].
  - destruct (Qeq_bool _ 0%Q) eqn:E.
    + apply Qeq_bool_iff in E. rewrite <- HU'. done.
    + apply Qeq_bool_neq in E. rewrite HU' in E.
      split; [discriminate|contradiction].
  - destruct (Qeq_bool _ 0%Q); [discriminate|].
    intros c [= <-]. split; [exact HU'|reflexivity].
Qed.

End Merge.

Section Pagination.

Context {Item Cursor Body G : Type}.
Variable runRequestFunc :
  G -> Request Cursor Body -> G * Outcome (Page Item Cursor).

Implicit Types (op : Op Cursor Body) (g : G).
Implicit Types (cs pre mid post : list (@Call Item Cursor Body)).

Local Abbreviation loop := (paginatedLoop runRequestFunc).

(** When its condition is false the loop ends at once, with what was
    merged. *)
Lemma paginatedLoop_done fuel g op lek rs retry :
  (loadAll op && bool_decide (is_Some lek)) || retry = false ->
  loop fuel g op lek rs retry
  = mkRun (Returned (mergeResults (Some <$> rs) (opTableName op))) [] op g.
Proof. intros H. destruct fuel; simpl; rewrite H; reflexivity. Qed.

(** Every run of the loop is an exchange. *)
Lemma paginatedLoop_exchange fuel : forall g op lek rs retry,
  (loadAll op && bool_decide (is_Some lek)) || retry = true ->
  Exchange (loadAll op) (opTableName op) (opBody op) (opStartKey op) rs
    (calls (loop fuel g op lek rs retry))
    (completion (loop fuel g op lek rs retry)).
Proof.
  induction fuel as [|fuel IH]; intros g op lek rs retry Hc; simpl; rewrite Hc.
  - constructor.
  - destruct (runRequestFunc g (buildRequest op)) as [g' [resp|err]];
      cbn [logCall calls completion].
    + destruct (pLastEvaluatedKey resp) as [k|] eqn:Hk.
      * destruct (loadAll op) eqn:Hla.
        -- apply ExMore with k; [done|done|].
           specialize (IH g' (startKey k op) (Some k) (rs ++ [resp]) false).
           cbn [startKey loadAll opTableName opBody opStartKey] in IH.
           rewrite Hla in IH. apply IH. reflexivity.
        -- rewrite paginatedLoop_done by (simpl; by rewrite Hla).
           cbn [calls completion startKey opTableName].
           apply ExLast. by left.
      * rewrite paginatedLoop_done
          by (simpl; by rewrite andb_false_r).
        cbn [calls completion clearStartKey opTableName].
        apply ExLast. by right.
    + destruct (retryable err) eqn:Hr; cbn [negb calls completion].
      * apply ExRetry; [done|]. apply IH. by rewrite orb_true_r.
      * by apply ExFatal.
Qed.

Lemma paginatedRequest_exchange fuel g op :
  Exchange (loadAll op) (opTableName op) (opBody op) (opStartKey op) []
    (calls (paginatedRequest runRequestFunc fuel g op))
    (completion (paginatedRequest runRequestFunc fuel g op)).
Proof. apply paginatedLoop_exchange. by rewrite orb_true_r. Qed.

End Pagination.

(** *** What an exchange looks like *)

Section Exchanges.

Context {Item Cursor Body : Type}.
Implicit Types (la : bool) (name : string) (body : Body).

Implicit Types (sk : option Cursor) (rs : list (Page Item Cursor)).
Implicit Types (cs pre mid post : list (@Call Item Cursor Body)).
Implicit Types (c : Completion (Result Item Cursor)).








(** The pages of an exchange that returns: pages with a cursor, then one
    page that ends it; the aggregate merges them after the pages held. *)
Lemma Exchange_returned la name body sk rs cs c :
  Exchange la name body sk rs cs c ->
  forall a, c = Returned a ->
    exists front final,
      pagesOf cs = front ++ [final]
      /\ (la = false \/ pLastEvaluatedKey final = None)
      /\ Forall (fun p => la = true /\ is_Some (pLastEvaluatedKey p)) front
      /\ a = mergeResults (Some <$> rs ++ pagesOf cs) name.
Proof.
  induction 1 as [sk rs|sk rs err cs c Hr H IH|sk rs err Hr
                 |sk rs resp k cs c Hla Hk H IH|sk rs resp Hl];
    intros a Ha; try discriminate.
  - apply IH, Ha.
  - destruct (IH a Ha) as (front & final & E & Hf & Hfront & ->).
    exists (resp :: front), final.
    change (pagesOf ((mkRequest name sk body, Resolved resp) :: cs))
      with (resp :: pagesOf cs).
    rewrite E. split_and!; [done|done| |].
    + apply Forall_cons. split; [|done]. split; [done|]. by rewrite Hk.
    + by rewrite <- app_assoc.
  - injection Ha as <-. exists [], resp. by split_and!.
Qed.

(** Without [loadAll], an exchange has no page and has not returned, or
    has one page and has returned. *)
Lemma Exchange_single_page la name body sk rs cs c :
  Exchange la name body sk rs cs c -> la = false ->
  (pagesOf cs = [] /\ forall a, c <> Returned a)
  \/ exists p, pagesOf cs = [p] /\ exists a, c = Returned a.
Proof.
  induction 1 as [sk rs|sk rs err cs c Hr H IH|sk rs err Hr
                 |sk rs resp k cs c Hla Hk H IH|sk rs resp Hl];
    intros Hfalse.
  - by left.
  - apply IH, Hfalse.
  - by left.
  - congruence.
  - right. exists resp. eauto.
Qed.

(** The cursor among pages that all have one, followed by a page that has
    none, is the cursor of the last of the former. *)
Lemma lastCursor_front (front : list (Page Item Cursor)) final :
  Forall (fun p => is_Some (pLastEvaluatedKey p)) front ->
  pLastEvaluatedKey final = None ->
  lastCursor (front ++ [final])
  = match last front with
    | Some p => pLastEvaluatedKey p
    | None => None
    end.
Proof.
  intros Hfront Hfinal. induction Hfront as [|p front [k Hk] Hrest IH].
  - unfold lastCursor. simpl. by rewrite Hfinal.
  - change ((p :: front) ++ [final]) with (p :: (front ++ [final])).
    rewrite lastCursor_cons, IH, last_cons.
    destruct (last front) as [q|] eqn:Hq; [|by rewrite Hk].
    destruct (pLastEvaluatedKey q) eqn:Hkq; [done|].
    apply last_Some in Hq as [front' ->].
    apply Forall_app in Hrest as [_ Hq']. apply Forall_inv in Hq'.
    destruct Hq' as [k' Hk']. congruence.
Qed.

End Exchanges.

Section Engine.

Context {Item Cursor Body G : Type}.
Variable runRequestFunc :
  G -> Request Cursor Body -> G * Outcome (Page Item Cursor).

Implicit Types (op : Op Cursor Body) (g : G).

Local Abbreviation loop := (paginatedLoop runRequestFunc).
Local Abbreviation exec := (paginatedRequest runRequestFunc).


(** When an exhaustive pagination returns, the start key of the operation
    has been cleared. *)
Lemma paginatedLoop_clears_start_key fuel : forall g op lek rs retry a,
  loadAll op = true ->
  (bool_decide (is_Some lek) || retry) = true ->
  completion (loop fuel g op lek rs retry) = Returned a ->
  opStartKey (finalOp (loop fuel g op lek rs retry)) = None.
Proof.
  induction fuel as [|fuel IH]; intros g op lek rs retry a Hla Hc; simpl;
    rewrite Hla, andb_true_l, Hc; [discriminate|].
  destruct (runRequestFunc g (buildRequest op)) as [g' [resp|err]];
    cbn [logCall finalOp completion].
  - destruct (pLastEvaluatedKey resp) as [k|] eqn:Hk.
    + apply IH; [done|done].
    + rewrite paginatedLoop_done by (simpl; by rewrite andb_false_r).
      done.
  - destruct (retryable err); cbn [negb]; [|discriminate].
    apply IH; [done|by rewrite orb_true_r].
Qed.


(** C7, as the code has it.  When a run of [paginatedRequest] with
    [loadAll] returns, it has fetched pages that each carry a cursor and
    then one page without; the start key of the operation is cleared; and
    the aggregate's [LastEvaluatedKey] is the cursor of the page before
    the last one: it is missing only when the run fetched a single
    page. *)
Theorem paginatedRequest_aggregate_cursor fuel g op a :
  loadAll op = true ->
  completion (exec fuel g op) = Returned a ->
  exists front final,
    pagesOf (calls (exec fuel g op)) = front ++ [final]
    /\ pLastEvaluatedKey final = None
    /\ Forall (fun p => is_Some (pLastEvaluatedKey p)) front
    /\ LastEvaluatedKey a
       = match last front with
         | Some p => pLastEvaluatedKey p
         | None => None
         end
    /\ (LastEvaluatedKey a = None <-> front = [])
    /\ opStartKey (finalOp (exec fuel g op)) = None.
Proof.
  intros Hla Ha.
  pose proof (paginatedRequest_exchange runRequestFunc fuel g op) as H.
  destruct (Exchange_returned _ _ _ _ _ _ _ H a Ha)
    as (front & final & E & Hfinal & Hfront & ->).
  destruct Hfinal as [?|Hfinal]; [congruence|].
  assert (Hfront' : Forall (fun p => is_Some (pLastEvaluatedKey p)) front).
  { eapply Forall_impl; [exact Hfront|]. by intros p [_ ?]. }
  assert (Hk : LastEvaluatedKey
                 (mergeResults
                    (Some <$> [] ++ pagesOf (calls (exec fuel g op)))
                    (opTableName op))
               = match last front with
                 | Some p => pLastEvaluatedKey p
                 | None => None
                 end).
  { rewrite mergeResults_LastEvaluatedKey, mergedPages_Some, E. simpl.
    by apply lastCursor_front. }
  exists front, final. split_and!; try done.
  - rewrite Hk. split.
    + destruct (last front) as [q|] eqn:Hq; [|by apply last_None in Hq].
      intros Hnone. apply last_Some in Hq as [front' ->].
      apply Forall_app in Hfront' as [_ Hq]. apply Forall_inv in Hq.
      destruct Hq as [k Hq]. congruence.
    + by intros ->.
  - eapply paginatedLoop_clears_start_key; [done|done|exact Ha].
Qed.

End Engine.

(** *** The streaming variant *)

Section Streaming.

Context {Item Cursor Body G : Type}.
Variable runRequestFunc :
  G -> Request Cursor Body -> G * Outcome (Page Item Cursor).

Implicit Types (op : Op Cursor Body) (g : G) (la : bool) (body : Body).
Implicit Types (sk : option Cursor).
Implicit Types (evs pre post : list (StreamEvent Item Cursor Body)).

(** Every run of [startRead] is a stream. *)
Lemma startRead_streamed fuel : forall g op lek performRequest,
  Streamed (loadAll op) (opTableName op) (opBody op) (nextStartKey op lek)
    (startRead runRequestFunc fuel g op lek performRequest).
Proof.
  induction fuel as [|fuel IH]; intros g op lek pr; simpl; [constructor|].
  destruct pr; cbn [negb]; [|constructor].
  set (op1 := match lek with Some k => startKey k op | None => op end).
  assert (Hreq : buildRequest op1
                 = mkRequest (opTableName op) (nextStartKey op lek) (opBody op))
    by (subst op1; by destruct lek).
  assert (Hla : loadAll op1 = loadAll op) by (subst op1; by destruct lek).
  assert (Hsk : forall lek', nextStartKey op1 lek'
                = match lek' with
                  | Some k => Some k
                  | None => nextStartKey op lek
                  end)
    by (intros [k'|]; subst op1; by destruct lek).
  assert (Hn : opTableName op1 = opTableName op)
    by (subst op1; by destruct lek).
  assert (Hb : opBody op1 = opBody op) by (subst op1; by destruct lek).
  rewrite Hreq, Hla.
  destruct (runRequestFunc g _) as [g' [resp|err]].
  - destruct (pLastEvaluatedKey resp) as [k|] eqn:Hk.
    + destruct (loadAll op) eqn:Hl; cbn [negb orb].
      * rewrite bool_decide_true by eauto. cbn [negb].
        apply StPage with k; [done|done|].
        specialize (IH g' op1 (Some k) true).
        by rewrite Hsk, Hla, Hn, Hb in IH.
      * apply StEnd. by left.
    + rewrite bool_decide_false by (by intros [? ?]).
      rewrite orb_true_r. apply StEnd. by right.
  - destruct (retryable err) eqn:Hr; cbn [negb].
    + apply StRetry; [done|].
      specialize (IH g' op1 lek true).
      rewrite Hsk, Hla, Hn, Hb in IH. by destruct lek.
    + by apply StError.
Qed.







(** The end of the stream is the last event, and the event before it is
    the push of a page that ends the pagination. *)
Lemma Streamed_end la name body sk evs :
  Streamed la name body sk evs ->
  forall pre post,
    evs = pre ++ SEnd :: post ->
    post = []
    /\ exists pre' p, pre = pre' ++ [SPush p]
                      /\ (la = false \/ pLastEvaluatedKey p = None).
Proof.
  intros H. induction_streamed H; intros pre post E; split_events pre.
  - destruct (IH _ _ eq_refl) as (-> & pre' & p & -> & Hp).
    split; [done|]. by eexists (_ :: _ :: pre'), p.
  - destruct (IH _ _ eq_refl) as (-> & pre' & p & -> & Hp).
    split; [done|]. by eexists (_ :: _ :: pre'), p.
  - split; [done|]. by eexists [_], _.
Qed.


End Streaming.

Import Fixtures.

(** C7 as stated fails: an exhaustive scan of two pages, the second
    without cursor, returns an aggregate that still has the cursor of the
    first page as its [LastEvaluatedKey]. *)
Lemma aggregate_keeps_cursor_of_page_before_last :
  loadAll accountsScan = true
  /\ pagesOf (calls twoPages) = [firstPage; secondPage]
  /\ pLastEvaluatedKey secondPage = None
  /\ exists a, completion twoPages = Returned a
              /\ LastEvaluatedKey a = Some 11.
Proof. split_and!; try reflexivity. eexists. split; reflexivity. Qed.

Lemma paginatedRequest_aggregate_cursor_witness :
  loadAll accountsScan = true
  /\ exists a, completion twoPages = Returned a
     /\ exists front final,
          pagesOf (calls twoPages) = front ++ [final]
          /\ pLastEvaluatedKey final = None
          /\ Forall (fun p => is_Some (pLastEvaluatedKey p)) front
          /\ LastEvaluatedKey a
             = match last front with
               | Some p => pLastEvaluatedKey p
               | None => None
               end
          /\ (LastEvaluatedKey a = None <-> front = [])
          /\ opStartKey (finalOp twoPages) = None.
Proof.
  split; [reflexivity|]. eexists. split; [reflexivity|].
  apply (paginatedRequest_aggregate_cursor (scripted scriptEnd) 5
           [Resolved firstPage; Resolved secondPage] accountsScan);
    reflexivity.
Defined.

End UtilsFacts.

(** * Properties of the batch-get engine *)

Module BatchFacts.

Import Batch.

Section Buckets.

Context {A : Type}.

Implicit Types (l : list A).

Lemma chunks_concat n fuel : forall l,
  0 < n -> length l <= fuel -> concat (chunks n fuel l) = l.
Proof.
  induction fuel as [|fuel IH]; intros l Hn Hl.
  - by destruct l; [|simpl in Hl; lia].
  - destruct l as [|x l]; [done|].
    change (concat (chunks n (S fuel) (x :: l)))
      with (take n (x :: l) ++ concat (chunks n fuel (drop n (x :: l)))).
    rewrite IH; [apply take_drop|done|].
    rewrite length_drop. cbn [length] in *. lia.
Qed.

Lemma chunks_sizes n fuel : forall l,
  length <$> chunks n fuel l = chunkSizes n fuel (length l).
Proof.
  induction fuel as [|fuel IH]; intros l; [done|].
  destruct l as [|x l]; [done|].
  change (length <$> chunks n (S fuel) (x :: l))
    with (length (take n (x :: l))
            :: (length <$> chunks n fuel (drop n (x :: l)))).
  rewrite IH, length_take, length_drop. reflexivity.
Qed.

Lemma ceil_step len :
  0 < len -> (len + 99) / 100 = S ((len - 100 + 99) / 100).
Proof.
  intros Hlen. destruct (le_lt_dec len 100) as [Hle|Hgt].
  - replace (len - 100 + 99) with 99 by lia.
    rewrite (Nat.div_small 99 100) by lia.
    symmetry. apply (Nat.div_unique _ _ _ (len - 1)); lia.
  - replace (len + 99) with (1 * 100 + (len - 100 + 99)) by lia.
    rewrite Nat.div_add_l by lia. lia.
Qed.

(** There are [ceil (len / 100)] buckets. *)
Lemma chunkSizes_length fuel : forall len,
  len <= fuel -> length (chunkSizes 100 fuel len) = (len + 99) / 100.
Proof.
  induction fuel as [|fuel IH]; intros len Hlen.
  - by replace len with 0 by lia.
  - destruct len as [|len]; [done|].
    rewrite ceil_step by lia. simpl chunkSizes. simpl length.
    f_equal. apply IH. lia.
Qed.

(** Every bucket has between 1 and 100 keys, and every bucket that is
    not the last has exactly 100. *)
Lemma chunkSizes_lookup fuel : forall len i s,
  chunkSizes 100 fuel len !! i = Some s ->
  0 < s <= 100 /\ (S i < length (chunkSizes 100 fuel len) -> s = 100).
Proof.
  induction fuel as [|fuel IH]; intros len i s; [done|].
  destruct len as [|len]; [done|].
  change (chunkSizes 100 (S fuel) (S len))
    with (Nat.min 100 (S len) :: chunkSizes 100 fuel (S len - 100)).
  remember (Nat.min 100 (S len)) as m eqn:Hm.
  destruct i as [|i].
  - intros [= <-]. split; [lia|]. cbn [length]. intros Hi.
    destruct (le_lt_dec (S len) 100) as [Hle|Hgt]; [|lia].
    replace (S len - 100) with 0 in Hi by lia.
    destruct fuel; simpl in Hi; lia.
  - intros Hs. destruct (IH _ _ _ Hs) as [H1 H2].
    split; [done|]. cbn [length]. intros Hi. apply H2. lia.
Qed.

End Buckets.

Section Start.

Context {K SKey DItem Attrs Item V G : Type}.

Implicit Types (h : list (Cell K SKey V)) (ks : list K).
Implicit Types (table : Table SKey DItem Attrs Item V G).
Implicit Types (serializer : Serializer K SKey DItem Attrs).

(** The loop of [buckets] empties the array it is given and returns its
    elements in runs of 100. *)
Lemma bucketsLoop_chunks fuel : forall h keys ks,
  h !! keys = Some (ArrayCell ks) ->
  length ks <= fuel ->
  bucketsLoop fuel h keys
  = (<[keys := ArrayCell []]> h, chunks 100 fuel ks).
Proof.
  induction fuel as [|fuel IH]; intros h keys ks Hks Hlen.
  - destruct ks; [|simpl in Hlen; lia].
    cbn [bucketsLoop chunks]. by rewrite list_insert_id.
  - cbn [bucketsLoop chunks]. unfold arrayLength, splice0. rewrite Hks.
    destruct ks as [|k ks]; [cbn [length Nat.eqb]; by rewrite list_insert_id|].
    cbn [length Nat.eqb].
    rewrite (IH _ _ (drop 100 (k :: ks))).
    + by rewrite list_insert_insert_eq.
    + apply list_lookup_insert_eq. by eapply lookup_lt_Some.
    + rewrite length_drop. cbn [length] in *. lia.
Qed.

Lemma buckets_chunks h keys ks :
  h !! keys = Some (ArrayCell ks) ->
  buckets h keys
  = (<[keys := ArrayCell []]> h, chunks 100 (length ks) ks).
Proof.
  intros Hks. unfold buckets, arrayLength. rewrite Hks.
  by apply bucketsLoop_chunks.
Qed.

(** Called on the caller's own array, [buckets] would leave it empty. *)
Lemma buckets_empties_its_argument h keys ks :
  h !! keys = Some (ArrayCell ks) ->
  (buckets h keys).1 !! keys = Some (ArrayCell []).
Proof.
  intros Hks. rewrite (buckets_chunks _ _ _ Hks). simpl.
  apply list_lookup_insert_eq. by eapply lookup_lt_Some.
Qed.

Lemma startAll_requests table serializer options attrs bs : forall h,
  h !! options = Some (OptionsCell attrs) ->
  exists extra,
    startAll h table serializer bs options
    = Some (h ++ extra, bucketRequest table serializer attrs <$> bs).
Proof.
  induction bs as [|b bs IH]; intros h Ho.
  - exists []. simpl. by rewrite app_nil_r.
  - simpl. unfold buildInitialGetItemsRequest. rewrite Ho. simpl.
    destruct (IH (h ++ [EntryCell
                          {| Keys := serializeKeys serializer b;
                             Attributes := attrs |}])) as [extra ->].
    { rewrite lookup_app_l; [done|]. by eapply lookup_lt_Some. }
    simpl. eexists. by rewrite <- app_assoc.
Qed.

Lemma getItemsBody_requests table serializer h g keys ks o attrs :
  h !! keys = Some (ArrayCell ks) ->
  h !! o = Some (OptionsCell attrs) ->
  exists extra,
    getItemsBody table serializer h g keys o
    = Some (h ++ extra,
            startPool g (bucketRequest table serializer attrs
                           <$> chunks 100 (length ks) ks)).
Proof.
  intros Hks Ho. unfold getItemsBody, clone, alloc. rewrite Hks. simpl.
  rewrite (buckets_chunks _ _ ks) by apply list_lookup_middle, eq_refl.
  destruct (startAll_requests table serializer o attrs
              (chunks 100 (length ks) ks)
              (<[length h := ArrayCell []]> (h ++ [ArrayCell ks])))
    as [extra ->].
  { rewrite list_lookup_insert_ne, lookup_app_l;
      [done|by eapply lookup_lt_Some|].
    apply lookup_lt_Some in Ho. lia. }
  simpl. eexists.
  replace (length h) with (length h + 0) at 1 by lia.
  rewrite insert_app_r. simpl. by rewrite <- app_assoc.
Qed.

(** [getItems] up to its first requests: it only adds cells to the
    store, and sends one request per bucket of 100 keys. *)
Lemma getItemsStart_requests table serializer h g keys ks options :
  h !! keys = Some (ArrayCell ks) ->
  optionsOk h options ->
  exists extra attrs,
    getItemsStart table serializer h g keys options
    = Some (h ++ extra,
            startPool g (bucketRequest table serializer attrs
                           <$> chunks 100 (length ks) ks)).
Proof.
  intros Hks Ho. destruct options as [o|]; cbn [getItemsStart alloc].
  - destruct Ho as [attrs Ho].
    destruct (getItemsBody_requests table serializer h g keys ks o attrs
                Hks Ho) as [extra E].
    by exists extra, attrs.
  - destruct (getItemsBody_requests table serializer (h ++ [OptionsCell ∅]) g
                keys ks (length h) ∅) as [extra E].
    { rewrite lookup_app_l; [done|]. by eapply lookup_lt_Some. }
    { apply list_lookup_middle, eq_refl. }
    eexists _, ∅. rewrite E. by rewrite <- app_assoc.
Qed.

End Start.

(** *** The loop of one bucket *)

Ltac induction_batch H :=
  induction H as [r rs|r rs err0 cs c Hr H IH|r rs err0 Hr
                 |r rs resp0 r0 cs c Hn H IH|r rs resp0 Hn].

Section Loop.

Context {SKey DItem Attrs Item V G : Type}.

Implicit Types (table : Table SKey DItem Attrs Item V G) (g : G).
Implicit Types (r request : BatchRequest SKey V).
Implicit Types (rs : list (BatchResponse SKey DItem V)).
Implicit Types (cs pre post : list (BatchCall SKey DItem V)).
Implicit Types (c : Completion (Merged DItem)).

Lemma paginatedLoop_None fuel table g rs :
  paginatedLoop fuel table g None rs
  = mkBatchRun (Returned (mergeResponses (tableName table) rs)) [] g.
Proof. by destruct fuel. Qed.

(** Every run of the loop is an exchange. *)
Lemma paginatedLoop_batch_exchange table fuel : forall g r rs,
  BatchExchange (tableName table) r rs
    (calls (paginatedLoop fuel table g (Some r) rs))
    (completion (paginatedLoop fuel table g (Some r) rs)).
Proof.
  induction fuel as [|fuel IH]; intros g r rs; simpl; [constructor|].
  destruct (runBatchGetItems table g r) as [g' [resp|err]];
    cbn [logCall calls completion].
  - destruct (nextRequest resp) as [r'|] eqn:Hn.
    + eapply BxMore; [done|]. apply IH.
    + rewrite paginatedLoop_None. cbn [calls completion]. by apply BxLast.
  - destruct (retryable err) eqn:Hr; cbn [negb calls completion].
    + apply BxRetry; [done|]. apply IH.
    + by apply BxFatal.
Qed.



Lemma nextRequest_None (resp : BatchResponse SKey DItem V) :
  nextRequest resp = None <->
  moreKeysToProcess (UnprocessedKeys resp) = false.
Proof.
  unfold nextRequest. destruct (UnprocessedKeys resp) as [tables|]; [|done].
  by destruct (moreKeysToProcess (Some tables)).
Qed.








End Loop.

(** *** The buckets in flight *)

Section InFlight.

Context {K SKey DItem Attrs Item V G : Type}.
Variable table : Table SKey DItem Attrs Item V G.
Variable serializer : Serializer K SKey DItem Attrs.

Implicit Types (h : list (Cell K SKey V)) (ks : list K) (g : G).
Implicit Types (p : Pool SKey DItem Item V G).
Implicit Types (schedule : list nat).

Local Abbreviation step := (deliver table serializer).
Local Abbreviation settled := (Batch.settled table).
Local Abbreviation fullInv := (Batch.fullInv table).
Local Abbreviation run p schedule := (fold_left step schedule p).

(** [getItems] is its start followed by the answers of the schedule. *)
Lemma getItems_start h g keys ks options schedule :
  h !! keys = Some (ArrayCell ks) ->
  optionsOk h options ->
  exists extra attrs,
    let requests :=
      bucketRequest table serializer attrs <$> chunks 100 (length ks) ks in
    getItemsStart table serializer h g keys options
    = Some (h ++ extra, startPool g requests)
    /\ getItems table serializer h g keys options schedule
       = Some (h ++ extra, run (startPool g requests) schedule).
Proof.
  intros Hks Ho.
  destruct (getItemsStart_requests table serializer h g keys ks options
              Hks Ho) as (extra & attrs & E).
  exists extra, attrs. split; [done|]. unfold getItems. by rewrite E.
Qed.

(** An answer addressed to no waiting bucket changes nothing. *)
Lemma deliver_idle p i :
  (forall r rs, tasks p !! i <> Some (Running r rs)) -> step p i = p.
Proof.
  intros H. unfold deliver.
  destruct (tasks p !! i) as [[r rs| |]|] eqn:E; try done.
  by destruct (H r rs).
Qed.

Lemma run_no_buckets p schedule : tasks p = [] -> run p schedule = p.
Proof.
  intros Hp. induction schedule as [|i schedule IH]; [done|].
  simpl. rewrite deliver_idle; [done|]. intros r rs. by rewrite Hp.
Qed.

(** C10.  For an empty array of keys [getItems] makes no bucket, sends
    nothing to the gateway, and returns the empty list of items. *)
Theorem getItems_no_keys h g keys options schedule :
  h !! keys = Some (ArrayCell []) ->
  optionsOk h options ->
  (buckets h keys).2 = []
  /\ exists h' p,
       getItems table serializer h g keys options schedule = Some (h', p)
       /\ tasks p = [] /\ issued p = [] /\ answered p = []
       /\ gateway p = g
       /\ getItemsCompletion p = Returned [].
Proof.
  intros Hks Ho. split; [by rewrite (buckets_chunks _ _ _ Hks)|].
  destruct (getItems_start h g keys [] options schedule Hks Ho)
    as (extra & attrs & _ & E).
  rewrite E. eexists _, _. split; [done|].
  by rewrite run_no_buckets.
Qed.

(** C5.  [getItems] leaves the caller's array of keys and the caller's
    options object as they were: the references still lead to the same
    contents, as does every cell the store had before the call. *)
Theorem getItems_leaves_arguments h g keys ks options schedule :
  h !! keys = Some (ArrayCell ks) ->
  optionsOk h options ->
  exists h' p,
    getItems table serializer h g keys options schedule = Some (h', p)
    /\ h' !! keys = Some (ArrayCell ks)
    /\ (forall o, options = Some o -> h' !! o = h !! o)
    /\ (forall l c, h !! l = Some c -> h' !! l = Some c).
Proof.
  intros Hks Ho.
  destruct (getItems_start h g keys ks options schedule Hks Ho)
    as (extra & attrs & _ & E).
  rewrite E. eexists _, _. split; [done|].
  assert (Hframe : forall l c, h !! l = Some c -> (h ++ extra) !! l = Some c).
  { intros l c Hl. rewrite lookup_app_l; [done|]. by eapply lookup_lt_Some. }
  split_and!; [by apply Hframe| |done].
  intros o ->. destruct Ho as [attrs' Ho]. rewrite Ho. by apply Hframe.
Qed.

(** **** A gateway that answers in full *)

Lemma mergeResponses_single (tables : gmap string (list DItem))
    (u : option (gmap string (KeysAndAttributes SKey V))) items :
  tables !! tableName table = Some items ->
  mergedResponses
    (mergeResponses (tableName table)
       [{| Responses := Some tables; UnprocessedKeys := u |}])
  !! tableName table = Some items.
Proof.
  intros Ht. unfold mergeResponses. cbn [fold_left Responses].
  rewrite Ht. cbn [mergedResponses].
  by rewrite lookup_insert_eq, lookup_singleton_eq.
Qed.

(** With such a gateway the first answer to a bucket finishes it. *)
Lemma resume_full g r :
  fullResults table ->
  exists items,
    resume table serializer r [] (runBatchGetItems table g r).2 = Done items
    /\ length items = length (requestKeys (tableName table) r).
Proof.
  intros Hfull. destruct (Hfull g r) as (g' & tables & items & u & -> & Hu & Ht & Hl).
  cbn [snd resume].
  assert (Hn : nextRequest {| Responses := Some tables;
                              UnprocessedKeys := u |} = None)
    by (by apply nextRequest_None).
  rewrite Hn. eexists. split; [done|].
  unfold bucketItems. rewrite length_map.
  cbn [app]. by rewrite (mergeResponses_single _ _ _ Ht).
Qed.

Lemma startPool_fullInv g requests : fullInv requests (startPool g requests).
Proof.
  split_and!; [|done|done]. cbn [startPool tasks].
  induction requests as [|r requests IH]; constructor; [by left|done].
Qed.

Lemma deliver_full requests p i :
  fullResults table ->
  fullInv requests p ->
  fullInv requests (step p i)
  /\ (i < length requests ->
      exists items, tasks (step p i) !! i = Some (Done items))
  /\ (forall j items,
        tasks p !! j = Some (Done items) ->
        tasks (step p i) !! j = Some (Done items)).
Proof.
  intros Hfull (Hs & Hrej & Hiss). unfold deliver.
  destruct (tasks p !! i) as [[r rs|items|err]|] eqn:E.
  - destruct (Forall2_lookup_r _ _ _ _ _ Hs E) as (r0 & Hr0 & Hset).
    destruct Hset as [[= -> ->]|(items & [=] & _)].
    destruct (resume_full (gateway p) r0 Hfull) as (items & Hres & Hlen).
    destruct (runBatchGetItems table (gateway p) r0) as [g' out].
    cbn [snd] in Hres. rewrite Hres. cbn [tasks issued rejection].
    split_and!.
    + split_and!.
      * rewrite <- (list_insert_id requests i r0 Hr0).
        apply Forall2_insert; [done|]. right. eauto.
      * by rewrite Hrej.
      * by rewrite app_nil_r.
    + intros _. eexists. apply list_lookup_insert_eq. by eapply lookup_lt_Some.
    + intros j items' Hj. rewrite list_lookup_insert_ne; [done|].
      intros ->. congruence.
  - split_and!; [done|eauto|done].
  - destruct (Forall2_lookup_r _ _ _ _ _ Hs E) as (r0 & _ & Hset).
    by destruct Hset as [[=]|(items & [=] & _)].
  - split_and!; [done| |done].
    intros Hi. apply lookup_ge_None in E.
    apply Forall2_length in Hs. lia.
Qed.

(** With such a gateway, the buckets named by the schedule are done, and
    nothing more was sent. *)
Lemma run_full requests schedule : forall p,
  fullResults table ->
  fullInv requests p ->
  fullInv requests (run p schedule)
  /\ forall i,
       i < length requests ->
       i ∈ schedule \/ (exists items, tasks p !! i = Some (Done items)) ->
       exists items, tasks (run p schedule) !! i = Some (Done items).
Proof.
  induction schedule as [|j schedule IH]; intros p Hfull Hinv.
  - split; [done|]. intros i _ [Hi|Hi]; [by apply elem_of_nil in Hi|done].
  - destruct (deliver_full requests p j Hfull Hinv) as (Hinv' & Hj & Hkeep).
    destruct (IH (step p j) Hfull Hinv') as [Hinv'' Hdone].
    split; [exact Hinv''|].
    intros i Hi Hcase. apply Hdone; [done|].
    destruct Hcase as [Hin|(items & Hitems)].
    + apply elem_of_cons in Hin as [->|Hin]; [right; by apply Hj|by left].
    + right. eauto.
Qed.

(** Once every bucket is done, [getItems] returns, with as many items as
    the requests had keys. *)
Lemma all_done_completion requests (bs : list (Bucket SKey DItem Item V)) :
  Forall2 (fun r b =>
             exists items : list Item,
               b = Done items
               /\ length items = length (requestKeys (tableName table) r))
    requests bs ->
  exists results : list (list Item),
    mapM bucketResult bs = Some results
    /\ length (concat results)
       = list_sum ((fun r : BatchRequest SKey V =>
                      length (requestKeys (tableName table) r))
                     <$> requests).
Proof.
  induction 1 as [|r b requests bs (items & -> & Hlen) _ (results & Hm & Hsum)].
  - by exists [].
  - exists (items :: results). cbn [mapM bucketResult].
    rewrite Hm. split; [done|].
    cbn [concat fmap list_fmap list_sum]. rewrite length_app. simpl. lia.
Qed.

Lemma requestKeys_bucketRequest attrs (bucket : list K) :
  requestKeys (tableName table) (bucketRequest table serializer attrs bucket)
  = serializeKeys serializer bucket.
Proof.
  unfold requestKeys, bucketRequest. cbn [RequestItems].
  by rewrite lookup_singleton_eq.
Qed.

Lemma issued_startPool g (requests : list (BatchRequest SKey V)) :
  snd <$> issued (startPool (DItem:=DItem) (Item:=Item) g requests)
  = requests.
Proof. apply snd_imap_pair with (f := fun i => i). Qed.

Lemma requests_total_keys attrs (bs : list (list K)) :
  list_sum ((fun r : BatchRequest SKey V =>
               length (requestKeys (tableName table) r))
              <$> (bucketRequest table serializer attrs <$> bs))
  = length (concat bs).
Proof.
  induction bs as [|b bs IH]; [done|].
  rewrite !fmap_cons. cbn [concat].
  rewrite length_app, <- IH, requestKeys_bucketRequest.
  unfold serializeKeys. rewrite length_map. reflexivity.
Qed.

Lemma issued_startPool_keys g attrs (bs : list (list K)) :
  (fun x : nat * BatchRequest SKey V => requestKeys (tableName table) x.2)
    <$> issued (startPool (DItem:=DItem) (Item:=Item) g
                  (bucketRequest table serializer attrs <$> bs))
  = serializeKeys serializer <$> bs.
Proof.
  transitivity
    (requestKeys (tableName table)
       <$> (snd <$> issued (startPool (DItem:=DItem) (Item:=Item) g
                              (bucketRequest table serializer attrs <$> bs)))).
  { by rewrite <- list_fmap_compose. }
  rewrite issued_startPool, <- list_fmap_compose.
  apply list_fmap_ext. intros i b _. apply requestKeys_bucketRequest.
Qed.

(** With a gateway that answers in full and a schedule that names every
    bucket, [getItems] returns one item per key after one call per
    bucket. *)
Lemma run_full_completion g attrs (bs : list (list K)) schedule :
  fullResults table ->
  (forall i, i < length bs -> i ∈ schedule) ->
  let p := startPool g (bucketRequest table serializer attrs <$> bs) in
  issued (run p schedule) = issued p
  /\ exists items,
       getItemsCompletion (run p schedule) = Returned items
       /\ length items = length (concat bs).
Proof.
  intros Hfull Hall p. set (requests := bucketRequest table serializer attrs <$> bs).
  destruct (run_full requests schedule p Hfull (startPool_fullInv g requests))
    as ((Hs & Hrej & Hiss) & Hdone).
  split; [by rewrite Hiss|].
  destruct (all_done_completion requests (tasks (run p schedule)))
    as (results & Hm & Hlen).
  { apply Forall2_same_length_lookup. split; [by eapply Forall2_length|].
    intros i r b Hr Hb.
    destruct (Hdone i) as (items & Hi).
    { by eapply lookup_lt_Some. }
    { left. apply Hall. apply lookup_lt_Some in Hr.
      subst requests. by rewrite length_fmap in Hr. }
    pose proof (Forall2_lookup_lr _ _ _ _ _ _ Hs Hr Hb) as Hset.
    rewrite Hi in Hb. injection Hb as <-.
    destruct Hset as [[=]|(items' & [= <-] & Hl)]. eauto. }
  exists (concat results). unfold getItemsCompletion.
  rewrite Hrej, Hm. split; [done|].
  rewrite Hlen. apply requests_total_keys.
Qed.

(** C4.  [buckets] cuts the keys, in order, into [ceil (N / 100)] buckets
    of at most 100 keys, all full but possibly the last; [getItems] sends
    one request per bucket, with the keys of that bucket; in particular,
    for 250 keys and a gateway that always answers in full, whatever the
    order of the answers, the gateway is called 3 times, for 100, 100 and
    50 keys, and the result has 250 items. *)
Theorem getItems_buckets h g keys ks options :
  h !! keys = Some (ArrayCell ks) ->
  optionsOk h options ->
  let bs := (buckets h keys).2 in
  concat bs = ks
  /\ length bs = (length ks + 99) / 100
  /\ (forall i b,
        bs !! i = Some b ->
        0 < length b <= 100 /\ (S i < length bs -> length b = 100))
  /\ exists h' p,
       getItemsStart table serializer h g keys options = Some (h', p)
       /\ (fun x : nat * BatchRequest SKey V =>
             requestKeys (tableName table) x.2) <$> issued p
          = serializeKeys serializer <$> bs
       /\ (length ks = 250 ->
           (fun x : nat * BatchRequest SKey V =>
              length (requestKeys (tableName table) x.2)) <$> issued p
           = [100; 100; 50])
       /\ forall schedule,
            fullResults table ->
            (forall i, i < length bs -> i ∈ schedule) ->
            exists p',
              getItems table serializer h g keys options schedule
              = Some (h', p')
              /\ issued p' = issued p
              /\ exists items,
                   getItemsCompletion p' = Returned items
                   /\ length items = length ks.
Proof.
  intros Hks Ho. cbn zeta. rewrite (buckets_chunks _ _ _ Hks). cbn [snd].
  set (bs := chunks 100 (length ks) ks).
  assert (Hcat : concat bs = ks) by (apply chunks_concat; lia).
  assert (Hsz : length <$> bs = chunkSizes 100 (length ks) (length ks))
    by apply chunks_sizes.
  split_and!.
  - done.
  - rewrite <- (length_fmap length bs), Hsz. by apply chunkSizes_length.
  - intros i b Hb.
    assert (Hi : (length <$> bs) !! i = Some (length b))
      by (by rewrite list_lookup_fmap, Hb).
    rewrite Hsz in Hi. rewrite <- (length_fmap length bs), Hsz.
    by apply chunkSizes_lookup.
  - destruct (getItemsStart_requests table serializer h g keys ks options
                Hks Ho) as (extra & attrs & E).
    fold bs in E. eexists _, _. split; [exact E|].
    pose proof (issued_startPool_keys g attrs bs) as Hkeys.
    split_and!.
    + exact Hkeys.
    + intros H250.
      transitivity
        (length <$> ((fun x : nat * BatchRequest SKey V =>
                        requestKeys (tableName table) x.2)
                       <$> issued (startPool (DItem:=DItem) (Item:=Item) g
                                     (bucketRequest table serializer attrs
                                        <$> bs)))).
      { by rewrite <- list_fmap_compose. }
      rewrite Hkeys, <- list_fmap_compose.
      rewrite <- (list_fmap_ext length (length ∘ serializeKeys serializer) bs)
        by (intros; unfold serializeKeys; simpl; by rewrite length_map).
      rewrite Hsz, H250. reflexivity.
    + intros schedule Hfull Hall.
      unfold getItems. rewrite E. cbn [mbind option_bind].
      eexists. split; [done|].
      destruct (run_full_completion g attrs bs schedule Hfull Hall)
        as (Hiss & items & Hc & Hl).
      split; [exact Hiss|]. exists items. split; [exact Hc|].
      rewrite Hl. by rewrite Hcat.
Qed.

(** **** Failures *)





(** **** How many requests wait for an answer *)

Lemma inFlight_startPool g (requests : list (BatchRequest SKey V)) :
  inFlight (startPool (DItem:=DItem) (Item:=Item) g requests)
  = length requests.
Proof.
  unfold inFlight. cbn [startPool tasks].
  induction requests as [|r requests IH]; [done|].
  rewrite fmap_cons. cbn [List.filter isRunning length]. by rewrite IH.
Qed.

Lemma deliver_tasks_length p i :
  length (tasks (step p i)) = length (tasks p).
Proof.
  unfold deliver. destruct (tasks p !! i) as [[r rs| |]|]; try done.
  destruct (runBatchGetItems table (gateway p) r) as [g' out].
  cbn [tasks]. apply length_insert.
Qed.

Lemma run_tasks_length schedule : forall p,
  length (tasks (run p schedule)) = length (tasks p).
Proof.
  induction schedule as [|i schedule IH]; intros p; [done|].
  simpl. by rewrite IH, deliver_tasks_length.
Qed.

Lemma sent_imap {B} (l : list B) : forall off j,
  length (List.filter (fun x : nat * B => Nat.eqb x.1 j)
            (imap (fun i r => (off + i, r)) l))
  = if decide (off <= j < off + length l) then 1 else 0.
Proof.
  induction l as [|x l IH]; intros off j.
  - cbn [imap List.filter length]. case_decide; [lia|done].
  - rewrite imap_cons.
    rewrite (imap_ext _ (fun i r => (S off + i, r)))
      by (intros; cbn; f_equal; lia).
    cbn [List.filter fst]. destruct (Nat.eqb_spec (off + 0) j) as [E|E].
    + cbn [length]. rewrite IH. repeat case_decide; lia.
    + rewrite IH. cbn [length]. repeat case_decide; lia.
Qed.

Lemma startPool_balanced g (requests : list (BatchRequest SKey V)) :
  balanced (startPool (DItem:=DItem) (Item:=Item) g requests).
Proof.
  intros j. unfold sentTo, answeredTo, waiting. cbn [startPool issued answered tasks].
  pose proof (sent_imap requests 0 j) as Hsent. cbn [Nat.add] in Hsent.
  rewrite Hsent, list_lookup_fmap. cbn [List.filter length].
  destruct (requests !! j) as [r|] eqn:E; cbn [fmap option_fmap option_map].
  - apply lookup_lt_Some in E. case_decide; lia.
  - apply lookup_ge_None in E. case_decide; lia.
Qed.

Lemma deliver_balanced p i : balanced p -> balanced (step p i).
Proof.
  intros Hb j. specialize (Hb j). revert Hb.
  unfold deliver, sentTo, answeredTo, waiting.
  destruct (tasks p !! i) as [[r rs|items|err]|] eqn:E; try done.
  destruct (runBatchGetItems table (gateway p) r) as [g' out].
  cbn [tasks issued answered].
  rewrite !List.filter_app, !length_app. cbn [List.filter fst].
  destruct (Nat.eqb_spec i j) as [->|Hne].
  - rewrite E, list_lookup_insert_eq by (by eapply lookup_lt_Some).
    destruct (resume table serializer r rs out);
      cbn [List.filter fst length]; rewrite ?Nat.eqb_refl; cbn [length]; lia.
  - rewrite list_lookup_insert_ne by done.
    destruct (resume table serializer r rs out);
      cbn [List.filter fst length];
      rewrite ?(proj2 (Nat.eqb_neq i j) Hne); cbn [length]; lia.
Qed.

Lemma run_balanced schedule : forall p,
  balanced p -> balanced (run p schedule).
Proof.
  induction schedule as [|i schedule IH]; intros p Hb; [done|].
  apply IH. by apply deliver_balanced.
Qed.

Lemma waiting_le_1 p i : waiting i p <= 1.
Proof. unfold waiting. destruct (tasks p !! i) as [[]|]; lia. Qed.

Lemma chunks_length ks :
  length (chunks 100 (length ks) ks) = (length ks + 99) / 100.
Proof.
  rewrite <- (length_fmap length), chunks_sizes. by apply chunkSizes_length.
Qed.

Lemma inFlight_le_tasks p : inFlight p <= length (tasks p).
Proof. apply filter_length_le. Qed.

(** C9, as the code has it.  [getItems] sends the first request of every
    bucket before any answer comes: right after the start as many
    requests are in flight as there are buckets, [ceil (N / 100)], with
    no cap below that; afterwards each bucket has at most one request
    without answer at any time, and has one exactly while it runs. *)
Theorem getItems_sends_all_buckets_at_once h g keys ks options schedule :
  h !! keys = Some (ArrayCell ks) ->
  optionsOk h options ->
  exists h' p0 p,
    getItemsStart table serializer h g keys options = Some (h', p0)
    /\ getItems table serializer h g keys options schedule = Some (h', p)
    /\ inFlight p0 = (length ks + 99) / 100
    /\ inFlight p <= (length ks + 99) / 100
    /\ forall i,
         answeredTo i p <= sentTo i p <= answeredTo i p + 1
         /\ (sentTo i p = answeredTo i p + 1
             <-> exists r rs, tasks p !! i = Some (Running r rs)).
Proof.
  intros Hks Ho.
  destruct (getItems_start h g keys ks options schedule Hks Ho)
    as (extra & attrs & E0 & E).
  cbn zeta in E0, E. eexists _, _, _. split; [exact E0|]. split; [exact E|].
  split_and!.
  - by rewrite inFlight_startPool, length_fmap, chunks_length.
  - etrans; [apply inFlight_le_tasks|].
    rewrite run_tasks_length. cbn [startPool tasks].
    by rewrite !length_fmap, chunks_length.
  - intros i.
    pose proof (run_balanced schedule _ (startPool_balanced g
                  (bucketRequest table serializer attrs
                     <$> chunks 100 (length ks) ks)) i) as Hb.
    revert Hb. unfold waiting.
    destruct (tasks _ !! i) as [[r rs|items|err]|] eqn:Ei; intros ->.
    + split; [lia|]. split; [eauto|lia].
    + split; [lia|]. split; [lia|]. by intros (? & ? & [=]).
    + split; [lia|]. split; [lia|]. by intros (? & ? & [=]).
    + split; [lia|]. split; [lia|]. by intros (? & ? & [=]).
Qed.

End InFlight.

(** *** Failures of the gateway, in both engines *)


(** *** The sample table *)

Import Fixtures.

Lemma accounts_fullResults : fullResults accounts.
Proof.
  intros g r. eexists g, _, _, None. split_and!; [reflexivity|done| |done].
  cbn [accounts tableName]. apply lookup_singleton_eq.
Qed.

(** [getItems] starts with every bucket in flight. *)
Lemma getItemsStart_inFlight {K SKey DItem Attrs Item V G : Type}
    (table : Table SKey DItem Attrs Item V G)
    (serializer : Serializer K SKey DItem Attrs)
    (h : list (Cell K SKey V)) g keys ks options :
  h !! keys = Some (ArrayCell ks) ->
  optionsOk h options ->
  exists h' p,
    getItemsStart table serializer h g keys options = Some (h', p)
    /\ inFlight p = (length ks + 99) / 100.
Proof.
  intros Hks Ho.
  destruct (getItemsStart_requests table serializer h g keys ks options
              Hks Ho) as (extra & attrs & E).
  eexists _, _. split; [exact E|].
  by rewrite inFlight_startPool, length_fmap, chunks_length.
Qed.

(** C9 as stated fails: no number bounds the requests in flight.  For any
    candidate cap, [getItems] on [100 * (cap + 1)] keys has [cap + 1]
    requests in flight at once. *)
Lemma getItems_fan_out_has_no_cap :
  ~ exists cap : nat,
      forall (ks : list nat) h' p,
        getItemsStart accounts plainSerializer [ArrayCell ks] tt 0 None
        = Some (h', p) ->
        inFlight p <= cap.
Proof.
  intros [cap Hcap].
  destruct (getItemsStart_inFlight accounts plainSerializer
              [ArrayCell (replicate (S cap * 100) 0)] tt 0
              (replicate (S cap * 100) 0) None eq_refl I)
    as (h' & p & E & Hin).
  specialize (Hcap _ _ _ E).
  rewrite length_replicate, Nat.div_add_l, (Nat.div_small 99 100) in Hin; lia.
Qed.

(** The test "should get unprocessed keys": two calls, the second for
    the key left unprocessed only, and both items in the result. *)
Example getItems_unprocessed_keys :
  match getItems scriptedAccounts plainSerializer twoKeys
          [Resolved leavesSecondKey; Resolved servesSecondKey] 0 None [0; 0]
  with
  | Some (_, p) =>
      (fun x : nat * BatchRequest nat bool => requestKeys "accounts" x.2)
        <$> issued p = [[1; 2]; [2]]
      /\ getItemsCompletion p = Returned [1; 2]
  | None => False
  end.
Proof. vm_compute. split; reflexivity. Qed.

(** The test "should get items when encounters retryable exception": the
    same request is sent twice. *)
Example getItems_retryable_exception :
  match getItems scriptedAccounts plainSerializer twoKeys
          [Rejected throttled;
           Resolved {| Responses := Some {[ "accounts" := [1; 2] ]};
                       UnprocessedKeys := None |}] 0 None [0; 0]
  with
  | Some (_, p) =>
      (fun x : nat * BatchRequest nat bool => requestKeys "accounts" x.2)
        <$> issued p = [[1; 2]; [1; 2]]
      /\ getItemsCompletion p = Returned [1; 2]
  | None => False
  end.
Proof. vm_compute. split; reflexivity. Qed.

(** The test "should return error": one call, and the call fails. *)
Example getItems_fatal_error :
  match getItems scriptedAccounts plainSerializer twoKeys
          [Rejected scriptEnd] 0 None [0; 0]
  with
  | Some (_, p) =>
      length (issued p) = 1 /\ getItemsCompletion p = Threw scriptEnd
  | None => False
  end.
Proof. vm_compute. split; reflexivity. Qed.

Lemma getItems_sends_all_buckets_at_once_witness :
  exists h' p0 p,
    getItemsStart accounts plainSerializer manyKeys tt 0 None = Some (h', p0)
    /\ getItems accounts plainSerializer manyKeys tt 0 None [1; 0]
       = Some (h', p)
    /\ inFlight p0 = 3
    /\ inFlight p <= 3.
Proof.
  destruct (getItems_sends_all_buckets_at_once accounts plainSerializer
              manyKeys tt 0 (seq 0 250) None [1; 0] eq_refl I)
    as (h' & p0 & p & E0 & E & H0 & Hp & _).
  by exists h', p0, p.
Defined.

Lemma getItems_buckets_witness :
  let bs := (buckets manyKeys 0).2 in
  concat bs = seq 0 250
  /\ length bs = 3
  /\ exists h' p p',
       getItemsStart accounts plainSerializer manyKeys tt 0 None
       = Some (h', p)
       /\ (fun x : nat * BatchRequest nat bool =>
             length (requestKeys "accounts" x.2)) <$> issued p
          = [100; 100; 50]
       /\ getItems accounts plainSerializer manyKeys tt 0 None [2; 0; 1]
          = Some (h', p')
       /\ issued p' = issued p
       /\ exists items,
            getItemsCompletion p' = Returned items /\ length items = 250.
Proof.
  destruct (getItems_buckets accounts plainSerializer manyKeys tt 0
              (seq 0 250) None eq_refl I)
    as (Hcat & Hlen & _ & h' & p & E & _ & H250 & Hfull).
  destruct (Hfull [2; 0; 1] accounts_fullResults) as (p' & E' & Hiss & Hitems).
  { intros i Hi. change (i < 3) in Hi.
    destruct i as [|[|[|i]]];
      [apply list_elem_of_In; simpl; tauto..|lia]. }
  split_and!; [exact Hcat|exact Hlen|].
  exists h', p, p'. split_and!; [exact E|exact (H250 eq_refl)|exact E'|exact Hiss|].
  exact Hitems.
Defined.

Lemma getItems_leaves_arguments_witness :
  exists h' p,
    getItems accounts plainSerializer fewKeys tt 0 (Some 1) [0] = Some (h', p)
    /\ h' !! 0 = Some (ArrayCell [1; 2; 3])
    /\ h' !! 1 = Some (OptionsCell {[ "ConsistentRead" := true ]}).
Proof.
  destruct (getItems_leaves_arguments accounts plainSerializer fewKeys tt 0
              [1; 2; 3] (Some 1) [0] eq_refl (ex_intro _ _ eq_refl))
    as (h' & p & E & Hkeys & Hopts & _).
  exists h', p. split_and!; [exact E|exact Hkeys|].
  by rewrite (Hopts 1 eq_refl).
Defined.

Lemma getItems_no_keys_witness :
  (buckets noKeys 0).2 = []
  /\ exists h' p,
       getItems accounts plainSerializer noKeys tt 0 None [0; 1] = Some (h', p)
       /\ tasks p = [] /\ issued p = [] /\ answered p = []
       /\ gateway p = tt
       /\ getItemsCompletion p = Returned [].
Proof.
  exact (getItems_no_keys accounts plainSerializer noKeys tt 0 None [0; 1]
           eq_refl I).
Defined.

End BatchFacts.

(** * Further properties of the pagination engine *)

Module UtilsMore.

Import Utils UtilsViews UtilsFacts.

Section Engine.

Context {Item Cursor Body G : Type}.
Variable runRequestFunc :
  G -> Request Cursor Body -> G * Outcome (Page Item Cursor).

Implicit Types (op : Op Cursor Body) (g : G).

Local Abbreviation loop := (paginatedLoop runRequestFunc).
Local Abbreviation exec := (paginatedRequest runRequestFunc).

(** When the loop returns, the operation is left with the cursor of the
    last page fetched as its start key. *)
Lemma paginatedLoop_final_start_key fuel : forall g op lek rs retry a,
  (loadAll op && bool_decide (is_Some lek)) || retry = true ->
  completion (loop fuel g op lek rs retry) = Returned a ->
  exists p,
    last (pagesOf (calls (loop fuel g op lek rs retry))) = Some p
    /\ opStartKey (finalOp (loop fuel g op lek rs retry))
       = pLastEvaluatedKey p.
Proof.
  induction fuel as [|fuel IH]; intros g op lek rs retry a Hc; simpl;
    rewrite Hc; [discriminate|].
  destruct (runRequestFunc g (buildRequest op)) as [g' [resp|err]];
    cbn [logCall finalOp completion calls].
  - change (pagesOf ((buildRequest op, Resolved resp) :: ?cs))
      with (resp :: pagesOf cs).
    destruct ((loadAll op && bool_decide (is_Some (pLastEvaluatedKey resp)))
              || false) eqn:Hnext.
    + intros Ha.
      destruct (IH g' (match pLastEvaluatedKey resp with
                       | Some k => startKey k op
                       | None => clearStartKey op
                       end) (pLastEvaluatedKey resp) (rs ++ [resp]) false a)
        as (p & Hp & Hk); [by destruct (pLastEvaluatedKey resp)|done|].
      exists p. split; [|done]. by rewrite last_cons, Hp.
    + rewrite paginatedLoop_done by (by destruct (pLastEvaluatedKey resp)).
      intros _. exists resp. cbn [calls finalOp]. split; [done|].
      by destruct (pLastEvaluatedKey resp).
  - destruct (retryable err); cbn [negb]; [|discriminate].
    apply IH. by rewrite orb_true_r.
Qed.

(** X1.  The aggregate a paginated call returns is the merge of exactly
    the pages it fetched, in the order it fetched them: its items are
    theirs concatenated and its count is the sum of theirs; attempts that
    failed and were retried add nothing. *)
Theorem paginatedRequest_merges_fetched_pages fuel g op a :
  completion (exec fuel g op) = Returned a ->
  a = mergeResults (Some <$> pagesOf (calls (exec fuel g op))) (opTableName op)
  /\ Items a = concat (pageItems <$> pagesOf (calls (exec fuel g op)))
  /\ Count a = Zsum (pageCount <$> pagesOf (calls (exec fuel g op))).
Proof.
  intros Ha.
  pose proof (paginatedRequest_exchange runRequestFunc fuel g op) as H.
  destruct (Exchange_returned _ _ _ _ _ _ _ H a Ha)
    as (front & final & _ & _ & _ & ->).
  cbn [app]. split; [done|].
  unfold mergeResults. cbn [Items Count].
  pose proof (fold_mergeStep
                (Some <$> pagesOf (calls (exec fuel g op))) initialMemo) as Hf.
  cbn zeta in Hf. destruct Hf as (-> & -> & _).
  rewrite mergedPages_Some. cbn [initialMemo mItems mCount app].
  by rewrite Z.add_0_l.
Qed.

(** X2.  Without [loadAll], a call that returns has fetched one page; the
    aggregate has the items and the [LastEvaluatedKey] of that page, and
    the operation is left with that cursor as its start key, so that the
    request it builds next resumes after the page. *)
Theorem paginatedRequest_single_page_resumes fuel g op a :
  loadAll op = false ->
  completion (exec fuel g op) = Returned a ->
  exists p,
    pagesOf (calls (exec fuel g op)) = [p]
    /\ Items a = pageItems p
    /\ LastEvaluatedKey a = pLastEvaluatedKey p
    /\ ExclusiveStartKey (buildRequest (finalOp (exec fuel g op)))
       = pLastEvaluatedKey p.
Proof.
  intros Hla Ha.
  pose proof (paginatedRequest_exchange runRequestFunc fuel g op) as H.
  destruct (Exchange_single_page _ _ _ _ _ _ _ H Hla)
    as [[_ Hno]|(p & Hp & _)]; [by destruct (Hno a)|].
  destruct (Exchange_returned _ _ _ _ _ _ _ H a Ha)
    as (_ & _ & _ & _ & _ & Hmerge).
  destruct (paginatedLoop_final_start_key fuel g op None [] true a)
    as (q & Hq & Hk); [by rewrite orb_true_r|exact Ha|].
  fold (exec fuel g op) in Hq, Hk. rewrite Hp in Hq. injection Hq as <-.
  exists p. split; [done|]. rewrite Hmerge, Hp. cbn [app fmap list_fmap].
  split_and!.
  - unfold mergeResults, pageItems. cbn. by destruct (pItems p).
  - rewrite mergeResults_LastEvaluatedKey. cbn.
    unfold lastCursor. cbn. by destruct (pLastEvaluatedKey p).
  - exact Hk.
Qed.

(** The stream and the paginated call make the same gateway calls. *)
Lemma startRead_calls fuel : forall g op lek rs retry ops leks,
  (loadAll op && bool_decide (is_Some lek)) || retry = true ->
  loadAll op = loadAll ops ->
  buildRequest op
  = buildRequest (match leks with Some k => startKey k ops | None => ops end) ->
  callsOf (startRead runRequestFunc fuel g ops leks true)
  = calls (loop fuel g op lek rs retry).
Proof.
  induction fuel as [|fuel IH]; intros g op lek rs retry ops leks Hc Hla Hreq;
    simpl; rewrite Hc; [done|].
  set (op1 := match leks with Some k => startKey k ops | None => ops end) in *.
  assert (Hla1 : loadAll op1 = loadAll op)
    by (subst op1; rewrite Hla; by destruct leks).
  rewrite <- Hreq, Hla1.
  destruct (runRequestFunc g (buildRequest op)) as [g' [resp|err]];
    cbn [logCall calls].
  - change (callsOf (SCall ?r ?o :: SPush ?p :: ?evs))
      with ((r, o) :: callsOf evs).
    f_equal.
    destruct (loadAll op) eqn:Hl; cbn [negb orb andb].
    + destruct (pLastEvaluatedKey resp) as [k|] eqn:Hk.
      * rewrite bool_decide_true by eauto. cbn [negb].
        apply IH.
        -- cbn [startKey loadAll]. rewrite Hl.
           by rewrite bool_decide_true by eauto.
        -- cbn [startKey loadAll]. congruence.
        -- injection Hreq as Hn _ Hb. unfold buildRequest.
           cbn [startKey opTableName opStartKey opBody]. by rewrite Hn, Hb.
      * rewrite bool_decide_false by (by intros [? ?]). cbn [negb].
        by rewrite paginatedLoop_done by (simpl; by rewrite andb_false_r).
    + rewrite paginatedLoop_done
        by (destruct (pLastEvaluatedKey resp); simpl; by rewrite Hl).
      done.
  - destruct (retryable err); cbn [negb]; [|done].
    change (callsOf (SCall ?r ?o :: SWait ?ms :: ?evs))
      with ((r, o) :: callsOf evs).
    f_equal. apply IH; [by rewrite orb_true_r|congruence|].
    rewrite Hreq. subst op1. by destruct leks.
Qed.

(** The pages a stream pushes are the pages of its calls. *)
Lemma startRead_pushes fuel : forall g ops leks pr,
  pushedPages (startRead runRequestFunc fuel g ops leks pr)
  = pagesOf (callsOf (startRead runRequestFunc fuel g ops leks pr)).
Proof.
  induction fuel as [|fuel IH]; intros g ops leks pr; simpl; [done|].
  destruct pr; cbn [negb]; [|done].
  destruct (runRequestFunc g _) as [g' [resp|err]].
  - change (pushedPages (SCall ?r ?o :: SPush ?p :: ?evs))
      with (p :: pushedPages evs).
    change (callsOf (SCall ?r (Resolved ?q) :: SPush ?p :: ?evs))
      with ((r, Resolved q) :: callsOf evs).
    change (pagesOf ((?r, Resolved ?q) :: ?cs)) with (q :: pagesOf cs).
    f_equal. destruct (_ || _); [done|]. apply IH.
  - destruct (retryable err); cbn [negb]; [|done].
    change (pushedPages (SCall ?r ?o :: SWait ?ms :: ?evs))
      with (pushedPages evs).
    change (callsOf (SCall ?r (Rejected ?e) :: SWait ?ms :: ?evs))
      with ((r, Rejected e) :: callsOf evs).
    change (pagesOf ((?r, Rejected ?e) :: ?cs)) with (pagesOf cs).
    apply IH.
Qed.

(** X4.  For the same operation, gateway and number of gateway calls
    allowed, the streaming variant makes exactly the gateway calls the
    paginated call makes, and the pages it pushes are the pages the
    paginated call fetches, in the same order. *)
Theorem streamRequest_agrees_with_paginatedRequest fuel g op :
  callsOf (streamRequest runRequestFunc fuel g op) = calls (exec fuel g op)
  /\ pushedPages (streamRequest runRequestFunc fuel g op)
     = pagesOf (calls (exec fuel g op)).
Proof.
  assert (Hcalls : callsOf (streamRequest runRequestFunc fuel g op)
                   = calls (exec fuel g op)).
  { apply startRead_calls; [by rewrite orb_true_r|done|done]. }
  split; [exact Hcalls|].
  rewrite <- Hcalls. apply startRead_pushes.
Qed.

(** X5.  In a stream, a failure that is not retryable is followed by the
    emitted error and by nothing else; an error is emitted only then, it
    is the last event, and the end of the stream is never pushed in a
    stream that emits an error. *)
Theorem streamRequest_fatal_error fuel g op :
  let evs := streamRequest runRequestFunc fuel g op in
  (forall pre r err post,
      evs = pre ++ SCall r (Rejected err) :: post ->
      retryable err = false ->
      post = [SError err])
  /\ (forall pre err post,
      evs = pre ++ SError err :: post ->
      post = []
      /\ retryable err = false
      /\ (exists pre' r, pre = pre' ++ [SCall r (Rejected err)])
      /\ SEnd ∉ evs).
Proof.
  cbn zeta. pose proof (startRead_streamed runRequestFunc fuel g op None true)
    as H.
  fold (streamRequest runRequestFunc fuel g op) in H.
  split.
  - intros pre r err post E He. revert pre r err post E He.
    generalize (streamRequest runRequestFunc fuel g op) H. clear H.
    intros evs H. generalize dependent (nextStartKey op None).
    intros sk H.
    induction_streamed H; intros pre r err post E He; split_events pre;
      eauto; congruence.
  - intros pre err post E.
    assert (Hshape : post = [] /\ retryable err = false
                     /\ exists pre' r, pre = pre' ++ [SCall r (Rejected err)]).
    { revert pre err post E.
      generalize (streamRequest runRequestFunc fuel g op) H. clear H.
      intros evs H. generalize dependent (nextStartKey op None).
      intros sk H.
      induction_streamed H; intros pre err post E; split_events pre.
      - destruct (IH _ _ _ eq_refl) as (-> & ? & pre' & r & ->).
        split_and!; [done|done|]. by eexists (_ :: _ :: pre'), r.
      - split_and!; [done|done|]. by eexists [], _.
      - destruct (IH _ _ _ eq_refl) as (-> & ? & pre' & r & ->).
        split_and!; [done|done|]. by eexists (_ :: _ :: pre'), r. }
    destruct Hshape as (-> & He & Hpre). split_and!; [done|done|done|].
    intros Hend. apply list_elem_of_split in Hend as (l1 & l2 & E').
    destruct (Streamed_end _ _ _ _ _ H _ _ E') as (-> & _).
    rewrite E' in E.
    apply (f_equal last) in E. rewrite !last_snoc in E. discriminate.
Qed.

End Engine.

(** *** Scripted gateways *)

Section Scripted.

Context {Item Cursor Body : Type}.

Implicit Types (op : Op Cursor Body).
Implicit Types (script : list (Outcome (Page Item Cursor))).

Lemma scripted_loop_completes exhausted script : forall fuel op lek rs retry,
  (loadAll op && bool_decide (is_Some lek)) || retry = true ->
  scriptCompletes (loadAll op) script = true ->
  length script <= fuel ->
  let run :=
    paginatedLoop (Body:=Body) (scripted exhausted) fuel script op lek rs retry
  in
  completion run
  = Returned (mergeResults (Some <$> rs ++ scriptPages script) (opTableName op))
  /\ snd <$> calls run = script
  /\ finalGateway run = [].
Proof.
  induction script as [|out script IH]; intros fuel op lek rs retry Hc Hs Hlen;
    [discriminate|].
  destruct fuel as [|fuel]; [simpl in Hlen; lia|].
  cbn zeta. simpl paginatedLoop. rewrite Hc.
  cbn [logCall completion calls finalGateway fmap list_fmap snd].
  destruct out as [p|err].
  - change (scriptPages (Resolved p :: script)) with (p :: scriptPages script).
    cbn [scriptCompletes] in Hs.
    destruct (loadAll op && bool_decide (is_Some (pLastEvaluatedKey p)))
      eqn:Hnext.
    + destruct (IH fuel (match pLastEvaluatedKey p with
                         | Some k => startKey k op
                         | None => clearStartKey op
                         end) (pLastEvaluatedKey p) (rs ++ [p]) false)
        as (Hcomp & Hcalls & Hg).
      { destruct (pLastEvaluatedKey p); simpl in *; by rewrite ?Hnext. }
      { by destruct (pLastEvaluatedKey p). }
      { simpl in Hlen. lia. }
      rewrite Hcomp, Hcalls, Hg. split_and!; [|done|done].
      rewrite <- app_assoc. by destruct (pLastEvaluatedKey p).
    + destruct script; [|discriminate].
      rewrite paginatedLoop_done
        by (destruct (pLastEvaluatedKey p); simpl in *; by rewrite ?Hnext).
      cbn [completion calls finalGateway]. split_and!; [|done|done].
      by destruct (pLastEvaluatedKey p).
  - change (scriptPages (Rejected err :: script)) with (scriptPages script).
    cbn [scriptCompletes] in Hs. apply andb_prop in Hs as [Hr Hs].
    rewrite Hr. cbn [negb].
    destruct (IH fuel op lek rs true) as (Hcomp & Hcalls & Hg);
      [by rewrite orb_true_r|done|simpl in Hlen; lia|].
    by rewrite Hcomp, Hcalls, Hg.
Qed.

(** X3.  When the gateway answers with retryable failures and pages that
    lead to a page ending the pagination, a paginated call allowed at
    least that many gateway calls returns the merge of those pages,
    having made one call per answer and no call more. *)
Theorem paginatedRequest_returns_on_last_page exhausted script fuel op :
  scriptCompletes (loadAll op) script = true ->
  length script <= fuel ->
  let run := paginatedRequest (Body:=Body) (scripted exhausted) fuel script op in
  completion run
  = Returned (mergeResults (Some <$> scriptPages script) (opTableName op))
  /\ snd <$> calls run = script
  /\ finalGateway run = [].
Proof.
  intros Hs Hlen.
  apply (scripted_loop_completes exhausted script fuel op None [] true);
    [by rewrite orb_true_r|done|done].
Qed.

End Scripted.

Import Fixtures Samples.

Lemma paginatedRequest_merges_fetched_pages_witness :
  exists a,
    completion twoPages = Returned a
    /\ Items a = [10; 11; 12]
    /\ Count a = 3%Z.
Proof.
  eexists. split; [reflexivity|].
  destruct (paginatedRequest_merges_fetched_pages (scripted scriptEnd) 5
              [Resolved firstPage; Resolved secondPage] accountsScan _ eq_refl)
    as (_ & Hitems & Hcount).
  split; [exact Hitems|exact Hcount].
Defined.

Lemma paginatedRequest_single_page_resumes_witness :
  exists a p,
    completion onePage = Returned a
    /\ pagesOf (calls onePage) = [p]
    /\ LastEvaluatedKey a = pLastEvaluatedKey p
    /\ ExclusiveStartKey (buildRequest (finalOp onePage)) = Some 11.
Proof.
  destruct (paginatedRequest_single_page_resumes (scripted scriptEnd) 5
              [Resolved firstPage; Resolved secondPage] accountsPage _
              eq_refl eq_refl)
    as (p & Hp & _ & Hk & Hreq).
  eexists _, p. split_and!; [reflexivity|exact Hp|exact Hk|].
  injection Hp as <-. exact Hreq.
Defined.

Lemma paginatedRequest_returns_on_last_page_witness :
  completion (paginatedRequest (scripted scriptEnd) 3 throttledScript
                accountsScan)
  = Returned (mergeResults [Some firstPage; Some secondPage] "accounts").
Proof.
  destruct (paginatedRequest_returns_on_last_page (Body:=unit) scriptEnd
              throttledScript 3 accountsScan eq_refl (le_n 3))
    as (Hcomp & _).
  exact Hcomp.
Defined.

End UtilsMore.

(** * Further properties of the batch-get engine *)

Module BatchMore.

Import Batch BatchViews BatchFacts.

Section Merge.

Context {SKey DItem V : Type}.

Implicit Types (responses : list (BatchResponse SKey DItem V)).

(** The reduction of [mergeResponses], from an accumulator that holds
    this table only. *)
Lemma mergeResponses_fold (name : string) responses :
  forall acc : list DItem,
    mergedResponses
      (fold_left
         (fun memo resp =>
            match Responses resp with
            | Some tables =>
                match tables !! name with
                | Some items =>
                    {| mergedResponses :=
                         <[name := default [] (mergedResponses memo !! name)
                                     ++ items]> (mergedResponses memo) |}
                | None => memo
                end
            | None => memo
            end)
         responses {| mergedResponses := {[ name := acc ]} |})
    = {[ name := acc ++ concat (responseItems name <$> responses) ]}.
Proof.
  induction responses as [|resp responses IH]; intros acc.
  - simpl. by rewrite app_nil_r.
  - rewrite fmap_cons. cbn [fold_left concat]. unfold responseItems in *.
    destruct (Responses resp) as [tables|]; [|by rewrite IH].
    destruct (tables !! name) as [items|]; cbn [mergedResponses default];
      [|by rewrite IH].
    rewrite lookup_singleton_eq, insert_singleton_eq. cbn [default].
    by rewrite IH, app_assoc.
Qed.

Lemma mergeResponses_singleton (name : string) responses :
  mergedResponses (mergeResponses name responses)
  = {[ name := concat (responseItems name <$> responses) ]}.
Proof. unfold mergeResponses. by rewrite mergeResponses_fold. Qed.

(** X6.  [mergeResponses] keeps, for its table, the items of the
    responses concatenated in the order of the responses (a response
    without items for the table adds nothing), and keeps nothing of any
    other table. *)
Theorem mergeResponses_concatenates (name : string) responses :
  mergedResponses (mergeResponses name responses) !! name
  = Some (concat (responseItems name <$> responses))
  /\ forall other,
       other <> name ->
       mergedResponses (mergeResponses name responses) !! other = None.
Proof.
  rewrite mergeResponses_singleton. split; [apply lookup_singleton_eq|].
  intros other Hne. by apply lookup_singleton_ne.
Qed.

End Merge.

Section Loop.

Context {K SKey DItem Attrs Item V G : Type}.

Implicit Types (table : Table SKey DItem Attrs Item V G).
Implicit Types (serializer : Serializer K SKey DItem Attrs).

(** What an exchange returns is the merge of the responses held and of
    those received. *)
Lemma BatchExchange_data name r rs (cs : list (BatchCall SKey DItem V)) c :
  BatchExchange name r rs cs c ->
  forall data, c = Returned data ->
    data = mergeResponses name (rs ++ responsesOf cs).
Proof.
  intros H. induction_batch H; intros data Hd; try discriminate.
  - by apply IH.
  - change (responsesOf ((r, Resolved resp0) :: cs))
      with (resp0 :: responsesOf cs).
    rewrite (IH _ Hd). by rewrite <- app_assoc.
  - by injection Hd as <-.
Qed.

(** X7.  When the loop of a bucket returns, the items it hands on are
    those of every response it received, in the order received, each
    deserialized and wrapped once: nothing is lost and nothing is taken
    twice across the requests for unprocessed keys and the retries. *)
Theorem paginatedRequest_collects_every_response fuel table serializer g
    request data :
  completion (paginatedRequest fuel table g request) = Returned data ->
  let received :=
    responsesOf (calls (paginatedRequest fuel table g request)) in
  mergedResponses data !! tableName table
  = Some (concat (responseItems (tableName table) <$> received))
  /\ bucketItems table serializer data
     = map (fun i => initItem table (deserializeItem serializer i))
           (concat (responseItems (tableName table) <$> received)).
Proof.
  intros Hd received. unfold paginatedRequest in *.
  pose proof (paginatedLoop_batch_exchange table fuel g request []) as H.
  rewrite (BatchExchange_data _ _ _ _ _ H data Hd). cbn [app].
  fold received. unfold bucketItems.
  rewrite mergeResponses_singleton, lookup_singleton_eq. done.
Qed.

End Loop.

(** *** The order of the answers *)

Section Order.

Context {K SKey DItem Attrs Item V G : Type}.
Variable table : Table SKey DItem Attrs Item V G.
Variable serializer : Serializer K SKey DItem Attrs.
Variable answer : BatchRequest SKey V -> Outcome (BatchResponse SKey DItem V).

Implicit Types (p : Pool SKey DItem Item V G) (schedule : list nat).

Local Abbreviation step := (deliver table serializer).
Local Abbreviation adv := (advance table serializer answer).

Lemma deliver_tasks_stateless p i :
  stateless table answer ->
  tasks (step p i) = alter adv i (tasks p).
Proof.
  intros Hst. unfold deliver.
  destruct (tasks p !! i) as [b|] eqn:E.
  - assert (Halter : alter adv i (tasks p) = <[i := adv b]> (tasks p)).
    { apply list_eq. intros j.
      rewrite list_lookup_alter, list_lookup_insert.
      case_decide as Hij.
      - subst j. rewrite E. cbn.
        rewrite decide_True; [done|]. split; [done|].
        by eapply lookup_lt_Some.
      - rewrite decide_False; [done|]. by intros [? _]. }
    rewrite Halter. destruct b as [r rs|items|err].
    + specialize (Hst (gateway p) r).
      destruct (runBatchGetItems table (gateway p) r) as [g' out].
      cbn [snd] in Hst. subst out. done.
    + cbn [advance]. by rewrite list_insert_id.
    + cbn [advance]. by rewrite list_insert_id.
  - symmetry. apply list_eq. intros j. rewrite list_lookup_alter.
    case_decide; [subst; by rewrite E|done].
Qed.

Lemma run_tasks_stateless schedule : forall p,
  stateless table answer ->
  tasks (fold_left step schedule p)
  = fold_left (fun l i => alter adv i l) schedule (tasks p).
Proof.
  induction schedule as [|i schedule IH]; intros p Hst; [done|].
  cbn [fold_left]. rewrite IH by done. by rewrite deliver_tasks_stateless.
Qed.

Lemma alter_schedule_permutation (s1 s2 : list nat) :
  s1 ≡ₚ s2 ->
  forall l : list (Bucket SKey DItem Item V),
    fold_left (fun l i => alter adv i l) s1 l
    = fold_left (fun l i => alter adv i l) s2 l.
Proof.
  induction 1 as [|i s1 s2 _ IH|i j s|s1 s2 s3 _ IH1 _ IH2]; intros l.
  - done.
  - cbn [fold_left]. apply IH.
  - cbn [fold_left]. f_equal.
    destruct (decide (i = j)) as [->|Hne]; [done|].
    by apply list_alter_alter_ne.
  - by rewrite IH1.
Qed.

(** A bucket that failed stays failed, so a recorded error keeps its
    cause. *)
Lemma deliver_rejectionHasCause p i :
  rejectionHasCause p -> rejectionHasCause (step p i).
Proof.
  intros Hp. unfold deliver.
  destruct (tasks p !! i) as [[r rs|items|err]|] eqn:E; try done.
  destruct (runBatchGetItems table (gateway p) r) as [g' out].
  unfold rejectionHasCause. cbn [rejection tasks].
  destruct Hp as [Hnone|(j & err & Hj)].
  - rewrite Hnone.
    destruct (resume table serializer r rs out) as [r' rs'|items|err] eqn:Er;
      [by left|by left|].
    right. exists i, err. apply list_lookup_insert_eq.
    by eapply lookup_lt_Some.
  - right. exists j, err. rewrite list_lookup_insert_ne; [done|].
    intros ->. congruence.
Qed.

Lemma run_rejectionHasCause schedule : forall p,
  rejectionHasCause p -> rejectionHasCause (fold_left step schedule p).
Proof.
  induction schedule as [|i schedule IH]; intros p Hp; [done|].
  cbn [fold_left]. by apply IH, deliver_rejectionHasCause.
Qed.

Lemma getItemsBody_no_rejection (h h' : list (Cell K SKey V)) g keys o p :
  getItemsBody table serializer h g keys o = Some (h', p) ->
  rejection p = None.
Proof.
  unfold getItemsBody.
  destruct (clone h keys) as [[h1 copy]|]; [|done].
  cbn [mbind option_bind]. destruct (buckets h1 copy) as [h2 bs].
  destruct (startAll h2 table serializer bs o) as [[h3 requests]|]; [|done].
  cbn [mbind option_bind]. by intros [= <- <-].
Qed.

Lemma getItemsStart_no_rejection (h h' : list (Cell K SKey V)) g keys options p :
  getItemsStart table serializer h g keys options = Some (h', p) ->
  rejection p = None.
Proof.
  unfold getItemsStart. destruct options as [o|].
  - apply getItemsBody_no_rejection.
  - cbn [alloc]. apply getItemsBody_no_rejection.
Qed.

(** X8.  Behind a gateway whose answer depends on the request only, the
    order in which the answers to the buckets arrive does not matter:
    two schedules that are permutations of each other leave every bucket
    in the same state, and if [getItems] returns items under one it
    returns the same items, in the same order, under the other. *)
Theorem getItems_order_of_answers (h : list (Cell K SKey V)) g keys options
    s1 s2 h1 p1 h2 p2 :
  stateless table answer ->
  s1 ≡ₚ s2 ->
  getItems table serializer h g keys options s1 = Some (h1, p1) ->
  getItems table serializer h g keys options s2 = Some (h2, p2) ->
  h1 = h2
  /\ tasks p1 = tasks p2
  /\ forall items,
       getItemsCompletion p1 = Returned items ->
       getItemsCompletion p2 = Returned items.
Proof.
  intros Hst Hperm. unfold getItems.
  destruct (getItemsStart table serializer h g keys options)
    as [[h' p0]|] eqn:E0; [|discriminate].
  cbn [mbind option_bind]. intros [= <- <-] [= <- <-].
  assert (Htasks : tasks (fold_left step s1 p0) = tasks (fold_left step s2 p0)).
  { rewrite !run_tasks_stateless by done.
    by apply alter_schedule_permutation. }
  split_and!; [done|done|].
  intros items. unfold getItemsCompletion.
  destruct (rejection (fold_left step s1 p0)); [discriminate|].
  rewrite <- Htasks.
  destruct (mapM bucketResult (tasks (fold_left step s1 p0)))
    as [results|] eqn:Hm; [|discriminate].
  intros [= <-].
  destruct (run_rejectionHasCause s2 p0) as [->|(j & err & Hj)]; [|done|].
  { left. by eapply getItemsStart_no_rejection. }
  rewrite <- Htasks in Hj. apply mapM_Some in Hm.
  destruct (Forall2_lookup_l _ _ _ _ _ Hm Hj) as (? & _ & [=]).
Qed.

End Order.

Import Fixtures.

Lemma accounts_stateless :
  stateless accounts
    (fun r => Resolved {| Responses :=
                            Some {[ "accounts" := requestKeys "accounts" r ]};
                          UnprocessedKeys := None |}).
Proof. by intros g r. Qed.

Lemma paginatedRequest_collects_every_response_witness :
  exists data,
    completion (paginatedRequest 2 scriptedAccounts
                  [Resolved leavesSecondKey; Resolved servesSecondKey]
                  (bucketRequest scriptedAccounts plainSerializer ∅ [1; 2]))
    = Returned data
    /\ bucketItems scriptedAccounts plainSerializer data = [1; 2].
Proof.
  assert (E : exists data,
             completion (paginatedRequest 2 scriptedAccounts
                           [Resolved leavesSecondKey; Resolved servesSecondKey]
                           (bucketRequest scriptedAccounts plainSerializer ∅
                              [1; 2]))
             = Returned data)
    by (vm_compute; eauto).
  destruct E as [data E]. exists data. split; [exact E|].
  destruct (paginatedRequest_collects_every_response 2 scriptedAccounts
              plainSerializer
              [Resolved leavesSecondKey; Resolved servesSecondKey]
              (bucketRequest scriptedAccounts plainSerializer ∅ [1; 2])
              data E) as [_ Hitems].
  rewrite Hitems. vm_compute. reflexivity.
Defined.

Lemma getItems_order_of_answers_witness :
  exists h1 p1 h2 p2,
    getItems accounts plainSerializer manyKeys tt 0 None [0; 1; 2]
    = Some (h1, p1)
    /\ getItems accounts plainSerializer manyKeys tt 0 None [2; 0; 1]
       = Some (h2, p2)
    /\ h1 = h2 /\ tasks p1 = tasks p2.
Proof.
  destruct (getItemsStart_requests accounts plainSerializer manyKeys tt 0
              (seq 0 250) None eq_refl I) as (extra & attrs & E).
  eexists _, _, _, _.
  assert (E1 : getItems accounts plainSerializer manyKeys tt 0 None [0; 1; 2]
               = Some (manyKeys ++ extra,
                       fold_left (deliver accounts plainSerializer) [0; 1; 2]
                         (startPool tt
                            (bucketRequest accounts plainSerializer attrs
                               <$> chunks 100 (length (seq 0 250))
                                     (seq 0 250)))))
    by (unfold getItems; by rewrite E).
  assert (E2 : getItems accounts plainSerializer manyKeys tt 0 None [2; 0; 1]
               = Some (manyKeys ++ extra,
                       fold_left (deliver accounts plainSerializer) [2; 0; 1]
                         (startPool tt
                            (bucketRequest accounts plainSerializer attrs
                               <$> chunks 100 (length (seq 0 250))
                                     (seq 0 250)))))
    by (unfold getItems; by rewrite E).
  split; [exact E1|]. split; [exact E2|].
  destruct (getItems_order_of_answers accounts plainSerializer _ manyKeys tt 0
              None [0; 1; 2] [2; 0; 1] _ _ _ _ accounts_stateless
              (Permutation_sym (Permutation_cons_append [0; 1] 2)) E1 E2)
    as (Hh & Ht & _).
  split; [exact Hh|exact Ht].
Defined.

End BatchMore.

(** * Properties of the table creation *)

Module CreateTablesFacts.

Import CreateTables CreateTablesViews.

Section Polling.

Context {Opts G : Type}.

Implicit Types (model : Model Opts G) (options : GlobalOptions) (g : G).
Implicit Types (out : Outcome (option Description)) (polled : bool).

Lemma waitLoop_active fuel options model g polled :
  waitLoop fuel options model g (Some "ACTIVE") polled
  = mkRun (Returned tt) [] g.
Proof. by destruct fuel. Qed.

Lemma polls_cons (iv : Z) (name : string) polled out outs :
  (if polled then laterPolls iv name else polls (Opts:=Opts) iv name)
    (out :: outs)
  = (if polled then [EWait iv] else [])
      ++ EDescribe name out :: laterPolls iv name outs.
Proof. by destruct polled. Qed.

Lemma laterPolls_app (iv : Z) (name : string) outs1 outs2 :
  laterPolls (Opts:=Opts) iv name (outs1 ++ outs2)
  = laterPolls iv name outs1 ++ laterPolls iv name outs2.
Proof. unfold laterPolls. by rewrite fmap_app, concat_app. Qed.

Lemma polls_snoc (iv : Z) (name : string) front out :
  exists pre,
    polls (Opts:=Opts) iv name (front ++ [out]) = pre ++ [EDescribe name out].
Proof.
  destruct front as [|o front]; [by exists []|].
  cbn [app polls]. rewrite laterPolls_app.
  exists (EDescribe name o :: laterPolls iv name front ++ [EWait iv]).
  cbn. by rewrite <- app_assoc.
Qed.

Lemma laterPolls_changes_nothing (iv : Z) (name : string) outs :
  Forall (fun e => changesTable (Opts:=Opts) e = false)
    (laterPolls iv name outs).
Proof.
  induction outs as [|o outs IH]; [constructor|].
  change (laterPolls iv name (o :: outs))
    with (EWait (Opts:=Opts) iv :: EDescribe name o :: laterPolls iv name outs).
  by repeat constructor.
Qed.

Lemma polls_change_nothing (iv : Z) (name : string) outs :
  Forall (fun e => changesTable (Opts:=Opts) e = false) (polls iv name outs).
Proof.
  destruct outs as [|o outs]; [constructor|].
  cbn [polls]. constructor; [done|]. apply laterPolls_changes_nothing.
Qed.


(** The shape of every run of the loop. *)
Lemma waitLoop_polls options model fuel : forall g status polled,
  status <> Some "ACTIVE" ->
  let run := waitLoop fuel options model g status polled in
  exists n,
    n <= fuel
    /\ events run
       = (if polled then laterPolls (interval options) (tableName model)
          else polls (interval options) (tableName model))
           (describes model n g)
    /\ ((completion run = Pending
         /\ n = fuel
         /\ Forall (fun out => stillWaiting out = true) (describes model n g))
        \/ exists front out,
             describes model n g = front ++ [out]
             /\ Forall (fun out => stillWaiting out = true) front
             /\ stillWaiting out = false
             /\ completion run = verdict out).
Proof.
  induction fuel as [|fuel IH]; intros g status polled Hs; cbn zeta;
    cbn [waitLoop]; rewrite bool_decide_false by done.
  - exists 0. split; [done|]. split; [by destruct polled|]. left. by repeat split.
  - destruct (describeTable model g) as [g' out] eqn:Hd.
    destruct out as [[data|]|err].
    + destruct (decide (TableStatus data = Some "ACTIVE")) as [Ha|Ha].
      * rewrite Ha, waitLoop_active. exists 1. split; [lia|].
        cbn [describes]. rewrite Hd. cbn [addEvents events completion].
        split; [by destruct polled|]. right.
        exists [], (Resolved (Some data)). cbn.
        rewrite bool_decide_true by done. by repeat split.
      * destruct (IH g' (TableStatus data) true Ha)
          as (n & Hn & Hev & Hend). cbn zeta in Hev, Hend.
        exists (S n). split; [lia|]. cbn [describes]. rewrite Hd.
        cbn [addEvents events completion]. rewrite Hev, polls_cons.
        split; [by rewrite <- app_assoc|].
        assert (Hw : stillWaiting (Resolved (Some data)) = true).
        { cbn. by rewrite bool_decide_false. }
        destruct Hend as [(Hc & -> & Hall)|(front & out & E & Hall & Ho & Hc)].
        -- left. split_and!; [done|done|by constructor].
        -- right. exists (Resolved (Some data) :: front), out.
           rewrite E. split_and!; [done|by constructor|done|done].
    + exists 1. split; [lia|]. cbn [describes]. rewrite Hd.
      cbn [addEvents events completion]. split; [by destruct polled|].
      right. by exists [], (Resolved None).
    + exists 1. split; [lia|]. cbn [describes]. rewrite Hd.
      cbn [addEvents events completion]. split; [by destruct polled|].
      right. by exists [], (Rejected err).
Qed.




End Polling.

Section Creation.

Context {Opts G : Type}.

Implicit Types (model : Model Opts G) (options : option Opts) (g : G).
Implicit Types (globalOptions : option GlobalOptions) (config : Config Opts).
Implicit Types (models : list (string * Model Opts G)).

(** The block of events of one model whose table was created or updated
    with success and then seen active: one description, one change, and
    polls that change nothing and end on the table seen active. *)
Local Abbreviation activated config km block :=
  (exists described change pre e,
      block = EDescribe (tableName km.2) described :: change :: pre ++ [e]
      /\ change
         = (if missing described
            then ECreate (tableName km.2) (modelOptions config !! km.1)
                   (Resolved tt)
            else EUpdate (tableName km.2) (Resolved tt))
      /\ Forall (fun e => changesTable e = false) (pre ++ [e])
      /\ seenActive (tableName km.2) e).

Lemma addEvents_nil (r : Run Opts G) : addEvents [] r = r.
Proof. by destruct r. Qed.

Lemma addEvents_app evs1 evs2 (r : Run Opts G) :
  addEvents (evs1 ++ evs2) r = addEvents evs1 (addEvents evs2 r).
Proof. unfold addEvents. cbn. by rewrite app_assoc. Qed.

Lemma waitTillActive_shape fuel (o : GlobalOptions) model g :
  let run := waitTillActive fuel o model g in
  (exists outs, events run = polls (interval o) (tableName model) outs)
  /\ (completion run = Returned tt ->
      exists pre e, events run = pre ++ [e] /\ seenActive (tableName model) e).
Proof.
  cbn zeta.
  destruct (waitLoop_polls o model fuel g (Some "PENDING") false)
    as (n & _ & Hev & Hend); [done|]. cbn zeta in Hev, Hend.
  fold (waitTillActive fuel o model g) in Hev, Hend.
  split; [by eexists|]. intros Hc.
  destruct Hend as [(Hp & _)|(front & out & E & _ & _ & Hv)]; [congruence|].
  rewrite Hev, E. destruct (polls_snoc (Opts:=Opts) (interval o)
                              (tableName model) front out) as (pre & ->).
  exists pre, (EDescribe (tableName model) out). split; [done|].
  rewrite Hc in Hv. destruct out as [[data|]|err]; try discriminate.
  exists data. split; [done|]. cbn in Hv.
  by destruct (decide (TableStatus data = Some "ACTIVE"));
    [|rewrite bool_decide_false in Hv].
Qed.

Lemma createModelTable_shape fuel model globalOptions options g :
  let run := createModelTable fuel model globalOptions options g in
  let described := (describeTable model g).2 in
  exists (out : Outcome unit) rest,
    events run
    = EDescribe (tableName model) described
        :: (if missing described
            then ECreate (tableName model) options out
            else EUpdate (tableName model) out)
        :: rest
    /\ (forall err,
          out = Rejected err -> rest = [] /\ completion run = Threw err)
    /\ (exists outs,
          rest = polls (interval (default {| pollingInterval := None |}
                                          globalOptions))
                   (tableName model) outs)
    /\ Forall (fun e => changesTable e = false) rest
    /\ (completion run = Returned tt ->
        out = Resolved tt
        /\ exists pre e, rest = pre ++ [e] /\ seenActive (tableName model) e).
Proof.
  cbn zeta. unfold createModelTable.
  destruct (describeTable model g) as [g1 described]. cbn [snd].
  set (desc := match described with Resolved data => data | Rejected _ => None end).
  assert (Hm : missing described = bool_decide (desc = None)).
  { subst desc. by destruct described as [[?|]|?]. }
  set (global := default {| pollingInterval := None |} globalOptions).
  destruct desc as [d|].
  - rewrite Hm. cbn [bool_decide decide_rel]. rewrite bool_decide_false by done.
    destruct (updateTable model g1) as [g2 [[]|err]];
      cbn [addEvents events completion app].
    + destruct (waitTillActive_shape fuel global model g2) as ((outs & Hp) & Ha).
      exists (Resolved tt), (events (waitTillActive fuel global model g2)).
      split_and!; [done|done|by exists outs| |].
      * rewrite Hp. apply polls_change_nothing.
      * intros Hc. split; [done|]. by apply Ha.
    + exists (Rejected err), []. split_and!; [done| |by exists []|constructor|done].
      by intros ? [= <-].
  - rewrite Hm. rewrite bool_decide_true by done.
    destruct (createTable model options g1) as [g2 [[]|err]];
      cbn [addEvents events completion app].
    + destruct (waitTillActive_shape fuel global model g2) as ((outs & Hp) & Ha).
      exists (Resolved tt), (events (waitTillActive fuel global model g2)).
      split_and!; [done|done|by exists outs| |].
      * rewrite Hp. apply polls_change_nothing.
      * intros Hc. split; [done|]. by apply Ha.
    + exists (Rejected err), []. split_and!; [done| |by exists []|constructor|done].
      by intros ? [= <-].
Qed.

(** X11.  [createTable] describes the table once and then changes it
    once: it creates it, with the options given, when the description
    failed or had no data (the failure is swallowed), and updates it
    otherwise, never both.  If the change fails nothing follows and the
    call fails with that error; else the table is polled with the
    interval of the global options and changed no more, and the call
    returns only on the table seen ['ACTIVE']. *)
Theorem createTable_creates_or_updates fuel model globalOptions options g :
  let run := createModelTable fuel model globalOptions options g in
  let described := (describeTable model g).2 in
  exists (out : Outcome unit) rest,
    events run
    = EDescribe (tableName model) described
        :: (if missing described
            then ECreate (tableName model) options out
            else EUpdate (tableName model) out)
        :: rest
    /\ (forall err,
          out = Rejected err -> rest = [] /\ completion run = Threw err)
    /\ (exists outs,
          rest = polls (interval (default {| pollingInterval := None |}
                                          globalOptions))
                   (tableName model) outs)
    /\ Forall (fun e => changesTable e = false) rest
    /\ (completion run = Returned tt ->
        out = Resolved tt
        /\ exists pre e, rest = pre ++ [e] /\ seenActive (tableName model) e).
Proof. apply createModelTable_shape. Qed.

(** X12.  [createTables] handles the models one after the other: the
    run over a list of models followed by another is the run over the
    first list, followed, if that one returned, by the run over the
    second from the store it left; if the first did not return, the run
    is that of the first list alone, with its failure, and the models of
    the second list are not touched. *)
Theorem createTables_one_after_the_other fuel models1 models2 config g :
  createTables fuel (models1 ++ models2) config g
  = let first := createTables fuel models1 config g in
    match completion first with
    | Returned _ =>
        addEvents (events first)
          (createTables fuel models2 config (finalStore first))
    | _ => first
    end.
Proof.
  revert g. induction models1 as [|[key model] models1 IH]; intros g.
  - cbn. by rewrite addEvents_nil.
  - cbn [app createTables].
    destruct (completion (createModelTable fuel model (dynogels config)
                            (modelOptions config !! key) g)) eqn:Hc;
      cbn zeta; [|by rewrite Hc..].
    rewrite IH. cbn zeta. cbn [addEvents completion events finalStore].
    destruct (completion (createTables fuel models1 config _)); [|done..].
    by rewrite addEvents_app.
Qed.

(** X13.  When [createTables] returns, its events are one block per
    model, in the order of the models: the table described, then changed
    once with success (created with the options the configuration has
    for the model's key if the description failed or had no data,
    updated otherwise), then polled without another change until seen
    ['ACTIVE']. *)
Theorem createTables_returns_when_all_active fuel models config g :
  completion (createTables fuel models config g) = Returned tt ->
  exists blocks,
    events (createTables fuel models config g) = concat blocks
    /\ Forall2 (fun km block => activated config km block) models blocks.
Proof.
  revert g. induction models as [|[key model] models IH]; intros g Hc.
  - exists []. by split; [|constructor].
  - cbn [createTables] in *.
    destruct (createModelTable_shape fuel model (dynogels config)
                (modelOptions config !! key) g)
      as (out & rest & Hev & _ & _ & Hrest & Hret). cbn zeta in *.
    destruct (completion (createModelTable fuel model (dynogels config)
                            (modelOptions config !! key) g))
      as [[]| |] eqn:Hm;
      [|by rewrite Hm in Hc..].
    destruct (Hret eq_refl) as (-> & pre & e & -> & Hact).
    cbn [addEvents completion events] in *.
    destruct (IH _ Hc) as (blocks & Hblocks & Hall).
    eexists (_ :: blocks). rewrite Hblocks, Hev. split; [done|].
    constructor; [|done].
    eexists _, _, pre, e. cbn [fst snd]. split_and!; [done| |done|done].
    by destruct (missing _).
Qed.

End Creation.

Import CreateTablesSamples.


Lemma createTables_returns_when_all_active_witness :
  exists blocks,
    events (createTables 5 [("Account", scriptedModel "accounts")] noOptions
              [Resolved None; pending; active])
    = concat blocks
    /\ length blocks = 1.
Proof.
  destruct (createTables_returns_when_all_active 5
              [("Account", scriptedModel "accounts")] noOptions
              [Resolved None; pending; active])
    as (blocks & Hev & Hall); [reflexivity|].
  exists blocks. split; [exact Hev|].
  by rewrite <- (Forall2_length _ _ _ Hall).
Defined.

End CreateTablesFacts.

(** * Properties of the requests that create a table *)

Module TableFacts.

Import TableRequests.

Section Definitions.

Variable schema : Schema.

Implicit Types (names added : list string) (key : string).
Implicit Types (params : GlobalIndexParams).

Lemma orOne_nonzero (capacity : option Z) : orOne capacity <> 0%Z.
Proof.
  destruct capacity as [n|]; cbn; [|done]. by destruct (Z.eqb_spec n 0).
Qed.

Lemma definedNames_attributeDefinition names :
  definedNames (attributeDefinition schema <$> names) = names.
Proof.
  unfold definedNames. rewrite <- list_fmap_compose.
  induction names as [|k names IH]; [done|]. cbn. by rewrite IH.
Qed.

Lemma fold_localStep (locals : list (string * LocalIndexParams)) :
  forall definitions indexes,
    fold_left (localStep schema) locals (definitions, indexes)
    = (definitions
         ++ ((fun entry : string * LocalIndexParams =>
                attributeDefinition schema (localRangeKey entry.2))
               <$> locals),
       indexes
         ++ ((fun entry : string * LocalIndexParams =>
                secondaryIndex schema entry.2) <$> locals)).
Proof.
  induction locals as [|entry locals IH]; intros definitions indexes.
  - cbn. by rewrite !app_nil_r.
  - cbn [fold_left]. unfold localStep at 2. cbn [fst snd].
    rewrite IH, !fmap_cons, <- !app_assoc. done.
Qed.

Lemma fold_globalStep_indexes (globals : list (string * GlobalIndexParams)) :
  forall definitions indexes,
    (fold_left (globalStep schema) globals (definitions, indexes)).2
    = indexes
        ++ ((fun entry : string * GlobalIndexParams =>
               globalIndex entry.1 entry.2) <$> globals).
Proof.
  induction globals as [|entry globals IH]; intros definitions indexes.
  - cbn. by rewrite app_nil_r.
  - cbn [fold_left]. unfold globalStep at 2. cbn [fst snd].
    rewrite IH, fmap_cons, <- app_assoc. done.
Qed.

Lemma elem_of_concat {A} (x : A) (ls : list (list A)) :
  x ∈ concat ls <-> exists l, x ∈ l /\ l ∈ ls.
Proof.
  induction ls as [|l ls IH]; cbn [concat].
  - split; [by intros ?%elem_of_nil|]. by intros (l & _ & ?%elem_of_nil).
  - rewrite elem_of_app, IH. split.
    + intros [?|(l' & ? & ?)].
      * exists l. split; [done|]. apply elem_of_cons. by left.
      * exists l'. split; [done|]. apply elem_of_cons. by right.
    + intros (l' & Hx & [->|?]%elem_of_cons); [by left|].
      right. by exists l'.
Qed.

Lemma keyNames_keySchema (hash : string) (range : option string) :
  keyNames (keySchema hash range)
  = hash :: match truthyKey range with Some r => [r] | None => [] end.
Proof. unfold keySchema. by destruct (truthyKey range). Qed.

(** The keys of a global index that are not defined yet are defined,
    once each, and nothing else is. *)
Lemma defineGlobalKeys_adds names params :
  exists added,
    defineGlobalKeys schema params (attributeDefinition schema <$> names)
    = attributeDefinition schema <$> (names ++ added)
    /\ NoDup added
    /\ (forall key, key ∈ added ->
          (key ∉ names)
          /\ key ∈ keyNames (keySchema (globalHashKey params)
                                        (globalRangeKey params)))
    /\ (forall key,
          key ∈ keyNames (keySchema (globalHashKey params)
                                     (globalRangeKey params)) ->
          key ∈ names ++ added).
Proof.
  rewrite keyNames_keySchema. unfold defineGlobalKeys, defines.
  fold (definedNames (attributeDefinition schema <$> names)).
  rewrite definedNames_attributeDefinition.
  destruct (decide (globalHashKey params ∈ names)) as [Hh|Hh].
  - rewrite (bool_decide_true _ Hh). cbn zeta.
    destruct (truthyKey (globalRangeKey params)) as [r|].
    + fold (definedNames (attributeDefinition schema <$> names)).
      rewrite definedNames_attributeDefinition.
      destruct (decide (r ∈ names)) as [Hr|Hr].
      * rewrite (bool_decide_true _ Hr). exists [].
        rewrite app_nil_r. split_and!; [done|constructor| |].
        -- intros key Hk. by apply elem_of_nil in Hk.
        -- intros key Hk.
           apply elem_of_cons in Hk as [->|Hk]; [done|].
           by apply list_elem_of_singleton in Hk as ->.
      * rewrite (bool_decide_false _ Hr). exists [r].
        rewrite fmap_app. split_and!; [done|apply NoDup_singleton| |].
        -- intros key Hk. apply list_elem_of_singleton in Hk as ->.
           split; [done|]. apply elem_of_cons. right.
           by apply list_elem_of_singleton.
        -- intros key Hk. apply elem_of_app.
           apply elem_of_cons in Hk as [->|Hk]; [by left|by right].
    + exists []. rewrite app_nil_r. split_and!; [done|constructor| |].
      * intros key Hk. by apply elem_of_nil in Hk.
      * intros key Hk.
        apply elem_of_cons in Hk as [->|Hk]; [done|].
        by apply elem_of_nil in Hk.
  - rewrite (bool_decide_false _ Hh). cbn zeta.
    change [attributeDefinition schema (globalHashKey params)]
      with (attributeDefinition schema <$> [globalHashKey params]).
    rewrite <- fmap_app.
    destruct (truthyKey (globalRangeKey params)) as [r|].
    + fold (definedNames (attributeDefinition schema
                            <$> names ++ [globalHashKey params])).
      rewrite definedNames_attributeDefinition.
      destruct (decide (r ∈ names ++ [globalHashKey params])) as [Hr|Hr].
      * rewrite (bool_decide_true _ Hr). exists [globalHashKey params].
        split_and!; [done|apply NoDup_singleton| |].
        -- intros key Hk. apply list_elem_of_singleton in Hk as ->.
           split; [done|]. apply elem_of_cons. by left.
        -- intros key Hk.
           apply elem_of_cons in Hk as [->|Hk].
           ++ apply elem_of_app. right. by apply list_elem_of_singleton.
           ++ by apply list_elem_of_singleton in Hk as ->.
      * rewrite (bool_decide_false _ Hr). exists [globalHashKey params; r].
        change [attributeDefinition schema r]
          with (attributeDefinition schema <$> [r]).
        rewrite <- fmap_app, <- app_assoc.
        assert (Hne : r <> globalHashKey params).
        { intros ->. apply Hr, elem_of_app. right.
          by apply list_elem_of_singleton. }
        assert (Hrn : r ∉ names).
        { intros Hin. apply Hr, elem_of_app. by left. }
        split_and!; [done| | |].
        -- apply NoDup_cons. split; [|apply NoDup_singleton].
           intros Hin. by apply list_elem_of_singleton in Hin.
        -- intros key Hk. apply elem_of_cons in Hk as [->|Hk].
           ++ split; [done|]. apply elem_of_cons. by left.
           ++ apply list_elem_of_singleton in Hk as ->.
              split; [done|]. apply elem_of_cons. right.
              by apply list_elem_of_singleton.
        -- intros key Hk. apply elem_of_app. right.
           apply elem_of_cons in Hk as [->|Hk]; [by apply elem_of_cons; left|].
           apply elem_of_cons. by right.
    + exists [globalHashKey params].
      split_and!; [done|apply NoDup_singleton| |].
      * intros key Hk. apply list_elem_of_singleton in Hk as ->.
        split; [done|]. apply elem_of_cons. by left.
      * intros key Hk. apply elem_of_app. right.
        apply elem_of_cons in Hk as [->|Hk]; [by apply list_elem_of_singleton|].
        by apply elem_of_nil in Hk.
Qed.

Lemma fold_globalStep_definitions (globals : list (string * GlobalIndexParams)) :
  forall names indexes,
  exists added,
    (fold_left (globalStep schema) globals
       (attributeDefinition schema <$> names, indexes)).1
    = attributeDefinition schema <$> (names ++ added)
    /\ NoDup added
    /\ (forall key, key ∈ added ->
          (key ∉ names)
          /\ key ∈ concat ((fun entry : string * GlobalIndexParams =>
                              keyNames (keySchema (globalHashKey entry.2)
                                                  (globalRangeKey entry.2)))
                             <$> globals))
    /\ (forall key,
          key ∈ concat ((fun entry : string * GlobalIndexParams =>
                           keyNames (keySchema (globalHashKey entry.2)
                                               (globalRangeKey entry.2)))
                          <$> globals) ->
          key ∈ names ++ added).
Proof.
  induction globals as [|entry globals IH]; intros names indexes.
  - exists []. rewrite app_nil_r. split_and!; [done|constructor| |].
    + intros key Hk. by apply elem_of_nil in Hk.
    + intros key Hk. by apply elem_of_nil in Hk.
  - cbn [fold_left]. unfold globalStep at 2. cbn [fst snd].
    destruct (defineGlobalKeys_adds names entry.2)
      as (added1 & -> & Hnd1 & Hnew1 & Hall1).
    destruct (IH (names ++ added1) (indexes ++ [globalIndex entry.1 entry.2]))
      as (added2 & -> & Hnd2 & Hnew2 & Hall2).
    exists (added1 ++ added2). rewrite fmap_cons, concat_cons.
    split_and!; [by rewrite app_assoc| | |].
    + apply NoDup_app. split_and!; [done| |done].
      intros key Hk1 Hk2. destruct (Hnew2 key Hk2) as [Hn _].
      apply Hn, elem_of_app. by right.
    + intros key Hk. apply elem_of_app in Hk as [Hk|Hk].
      * destruct (Hnew1 key Hk) as [Hn Hin]. split; [done|].
        apply elem_of_app. by left.
      * destruct (Hnew2 key Hk) as [Hn Hin]. split.
        -- intros Hin'. apply Hn, elem_of_app. by left.
        -- apply elem_of_app. by right.
    + intros key Hk. rewrite app_assoc. apply elem_of_app in Hk as [Hk|Hk].
      * apply elem_of_app. left. by apply Hall1.
      * by apply Hall2.
Qed.

Lemma default_ifAny {A} (l : list A) : default [] (ifAny l) = l.
Proof. by destruct l. Qed.

Lemma ifAny_None {A} (l : list A) : ifAny l = None <-> l = [].
Proof. by destruct l. Qed.

(** The definitions ahead of the global indexes. *)
Lemma local_definitions :
  (fold_left (localStep schema) (secondaryIndexes schema)
     (tableKeyDefinitions schema, [])).1
  = attributeDefinition schema <$> tableAndLocalKeys schema.
Proof.
  rewrite fold_localStep. cbn [fst].
  unfold tableKeyDefinitions, tableAndLocalKeys.
  rewrite fmap_cons, fmap_app, <- list_fmap_compose.
  by destruct (truthyKey (rangeKey schema)).
Qed.

(** The definitions of the request. *)
Lemma createTableParams_definitions (tableName : string) options :
  exists added,
    AttributeDefinitions (createTableParams schema tableName options)
    = attributeDefinition schema <$> (tableAndLocalKeys schema ++ added)
    /\ NoDup added
    /\ (forall key, key ∈ added ->
          (key ∉ tableAndLocalKeys schema) /\ key ∈ globalKeys schema)
    /\ (forall key,
          key ∈ globalKeys schema -> key ∈ tableAndLocalKeys schema ++ added).
Proof.
  unfold createTableParams. cbn zeta. cbn [AttributeDefinitions].
  rewrite local_definitions.
  apply (fold_globalStep_definitions (globalIndexes schema)).
Qed.

Lemma createTableParams_indexes (tableName : string) options :
  indexesOf (createTableParams schema tableName options)
  = ((fun entry : string * LocalIndexParams => secondaryIndex schema entry.2)
       <$> secondaryIndexes schema)
    ++ ((fun entry : string * GlobalIndexParams =>
           globalIndex entry.1 entry.2) <$> globalIndexes schema).
Proof.
  unfold indexesOf, createTableParams. cbn zeta.
  cbn [LocalSecondaryIndexes GlobalSecondaryIndexes].
  rewrite !default_ifAny, fold_localStep, fold_globalStep_indexes. done.
Qed.

(** X14.  The [createTable] request defines every attribute it uses as
    a key: those of the key schema of the table and those of the key
    schema of each of its indexes, local and global. *)
Theorem createTable_defines_every_key (tableName : string) options :
  let request := createTableParams schema tableName options in
  (forall key,
      key ∈ keyNames (KeySchema request) ->
      key ∈ definedNames (AttributeDefinitions request))
  /\ (forall index key,
        index ∈ indexesOf request ->
        key ∈ keyNames (IndexKeySchema index) ->
        key ∈ definedNames (AttributeDefinitions request)).
Proof.
  cbn zeta.
  destruct (createTableParams_definitions tableName options)
    as (added & -> & _ & _ & Hall).
  rewrite definedNames_attributeDefinition, createTableParams_indexes.
  assert (Hhash : hashKey schema ∈ tableAndLocalKeys schema ++ added).
  { apply elem_of_app. left. apply elem_of_cons. by left. }
  split.
  - intros key. cbn [KeySchema createTableParams].
    rewrite keyNames_keySchema. intros Hk.
    apply elem_of_cons in Hk as [->|Hk]; [done|].
    apply elem_of_app. left. unfold tableAndLocalKeys.
    apply elem_of_cons. right. apply elem_of_app. by left.
  - intros index key Hi Hk. apply elem_of_app in Hi as [Hi|Hi];
      apply list_elem_of_fmap in Hi as (entry & -> & Hin).
    + cbn [IndexKeySchema secondaryIndex] in Hk.
      rewrite keyNames_keySchema in Hk.
      apply elem_of_cons in Hk as [->|Hk]; [done|].
      cbn [truthyKey] in Hk. case_bool_decide; [by apply elem_of_nil in Hk|].
      apply list_elem_of_singleton in Hk as ->.
      apply elem_of_app. left. unfold tableAndLocalKeys.
      apply elem_of_cons. right. apply elem_of_app. right.
      apply list_elem_of_fmap. by exists entry.
    + apply Hall. unfold globalKeys. apply elem_of_concat.
      eexists. split; [exact Hk|]. cbn [IndexKeySchema globalIndex].
      apply list_elem_of_fmap. by exists entry.
Qed.

(** X15.  The attributes the [createTable] request defines are the keys
    of the table and the range keys of the local indexes, one definition
    for each occurrence, followed by those keys of the global indexes
    that are not among them, each once; so a name is defined twice only
    if it occurs twice among the keys of the table and the range keys of
    the local indexes. *)
Theorem createTable_definitions (tableName : string) options :
  let request := createTableParams schema tableName options in
  exists added,
    AttributeDefinitions request
    = attributeDefinition schema <$> (tableAndLocalKeys schema ++ added)
    /\ NoDup added
    /\ (forall key, key ∈ added ->
          (key ∉ tableAndLocalKeys schema) /\ key ∈ globalKeys schema)
    /\ (NoDup (definedNames (AttributeDefinitions request))
        <-> NoDup (tableAndLocalKeys schema)).
Proof.
  cbn zeta.
  destruct (createTableParams_definitions tableName options)
    as (added & E & Hnd & Hnew & _).
  exists added. split_and!; [done|done|done|].
  rewrite E, definedNames_attributeDefinition. rewrite NoDup_app. split.
  - by intros (? & _).
  - intros Hb. split_and!; [done| |done].
    intros key Hk Ha. by destruct (Hnew key Ha).
Qed.

(** X16.  The [createTable] request has [LocalSecondaryIndexes] exactly
    when the schema has a local index, and then one index for each, in
    order, under the name of its parameters; it has
    [GlobalSecondaryIndexes] exactly when the schema has a global index,
    and then one for each, in order, under the key by which the schema
    holds it.  No throughput in the request is zero. *)
Theorem createTable_indexes (tableName : string) options :
  let request := createTableParams schema tableName options in
  (LocalSecondaryIndexes request = None <-> secondaryIndexes schema = [])
  /\ IndexName <$> default [] (LocalSecondaryIndexes request)
     = (fun entry : string * LocalIndexParams => localName entry.2)
         <$> secondaryIndexes schema
  /\ (GlobalSecondaryIndexes request = None <-> globalIndexes schema = [])
  /\ IndexName <$> default [] (GlobalSecondaryIndexes request)
     = fst <$> globalIndexes schema
  /\ ReadCapacityUnits (ProvisionedThroughput request) <> 0%Z
  /\ WriteCapacityUnits (ProvisionedThroughput request) <> 0%Z
  /\ (forall index throughput,
        index ∈ indexesOf request ->
        IndexThroughput index = Some throughput ->
        ReadCapacityUnits throughput <> 0%Z
        /\ WriteCapacityUnits throughput <> 0%Z).
Proof.
  pose proof orOne_nonzero as HorOne.
  cbn zeta. rewrite createTableParams_indexes.
  unfold createTableParams. cbn zeta.
  cbn [LocalSecondaryIndexes GlobalSecondaryIndexes ProvisionedThroughput
       ReadCapacityUnits WriteCapacityUnits].
  rewrite !default_ifAny, !ifAny_None, fold_localStep,
    fold_globalStep_indexes. cbn [fst snd app].
  rewrite <- !list_fmap_compose.
  split_and!; [split; [apply fmap_nil_inv|by intros ->]|done
              |split; [apply fmap_nil_inv|by intros ->]|done|done|done|].
  intros index throughput Hi Ht. apply elem_of_app in Hi as [Hi|Hi];
    apply list_elem_of_fmap in Hi as (entry & -> & _); [done|].
  cbn in Ht. injection Ht as <-. cbn. by split.
Qed.

End Definitions.

Section Missing.

Variable schema : Schema.

Implicit Types (data : TableData) (entry : string * GlobalIndexParams).

Lemma filter_none {A} (p : A -> bool) (l : list A) :
  (forall x, x ∈ l -> p x = false) -> List.filter p l = [].
Proof.
  induction l as [|x l IH]; intros Hall; [done|]. cbn [List.filter].
  rewrite (Hall x) by (apply elem_of_cons; by left).
  apply IH. intros y Hy. apply Hall, elem_of_cons. by right.
Qed.

Lemma missing_filter data :
  findMissingGlobalIndexes schema (Some data)
  = List.filter
      (fun entry =>
         negb (bool_decide (name entry.2 ∈ default [] (describedIndexes data))))
      (globalIndexes schema).
Proof. done. Qed.

(** X17.  With no description of the table every global index of the
    schema is missing.  With one, a global index is missing exactly when
    its name is not among the indexes described, and the missing ones
    keep the order of the schema; once indexes of their names are also
    described, none is missing. *)
Theorem findMissingGlobalIndexes_missing :
  findMissingGlobalIndexes schema None = globalIndexes schema
  /\ forall data,
      let missing := findMissingGlobalIndexes schema (Some data) in
      let existing := default [] (describedIndexes data) in
      (forall entry,
          entry ∈ missing
          <-> entry ∈ globalIndexes schema /\ name entry.2 ∉ existing)
      /\ sublist missing (globalIndexes schema)
      /\ findMissingGlobalIndexes schema
           (Some {| describedIndexes :=
                      Some (existing
                              ++ ((fun entry => name entry.2) <$> missing)) |})
         = [].
Proof.
  split; [done|]. intros data. cbn zeta. rewrite !missing_filter.
  cbn [describedIndexes default].
  set (existing := default [] (describedIndexes data)).
  split_and!.
  - intros entry. split.
    + intros Hin. apply list_elem_of_In, filter_In in Hin as [Hin Hb].
      split; [by apply list_elem_of_In|].
      by apply negb_true_iff, bool_decide_eq_false in Hb.
    + intros [Hin Hn]. apply list_elem_of_In, filter_In.
      split; [by apply list_elem_of_In|].
      by apply negb_true_iff, bool_decide_eq_false.
  - induction (globalIndexes schema) as [|e l IH]; [constructor|].
    cbn [List.filter]. destruct (negb _); by constructor.
  - apply filter_none. intros entry Hin.
    apply negb_false_iff, bool_decide_eq_true, elem_of_app.
    destruct (decide (name entry.2 ∈ existing)) as [He|He]; [by left|].
    right. apply list_elem_of_fmap. exists entry. split; [done|].
    apply list_elem_of_In, filter_In. split; [by apply list_elem_of_In|].
    by apply negb_true_iff, bool_decide_eq_false.
Qed.

(** X18.  If the schema holds each global index under its own name, a
    table that has the indexes of its [createTable] request has no
    global index missing. *)
Theorem createTable_leaves_no_index_missing (tableName : string) options :
  Forall (fun entry => entry.1 = name entry.2) (globalIndexes schema) ->
  findMissingGlobalIndexes schema
    (Some {| describedIndexes :=
               (fun indexes : list SecondaryIndex => IndexName <$> indexes)
                 <$> GlobalSecondaryIndexes
                       (createTableParams schema tableName options) |})
  = [].
Proof.
  intros Hkeyed. rewrite missing_filter. cbn [describedIndexes].
  unfold createTableParams. cbn zeta. cbn [GlobalSecondaryIndexes].
  rewrite fold_globalStep_indexes. cbn [app].
  assert (E : default []
                ((fun indexes : list SecondaryIndex => IndexName <$> indexes)
                   <$> ifAny ((fun entry => globalIndex entry.1 entry.2)
                                <$> globalIndexes schema))
              = fst <$> globalIndexes schema).
  { destruct (globalIndexes schema) as [|e l]; [done|].
    cbn [ifAny fmap list_fmap option_fmap option_map default].
    f_equal. by rewrite <- list_fmap_compose. }
  rewrite E. clear E.
  assert (Hall : forall entry, entry ∈ globalIndexes schema ->
                   name entry.2 ∈ fst <$> globalIndexes schema).
  { intros entry Hin. apply list_elem_of_fmap. exists entry. split; [|done].
    symmetry. by apply (proj1 (Forall_forall _ _) Hkeyed). }
  revert Hall. generalize (fst <$> globalIndexes schema). intros names Hall.
  apply filter_none. intros entry Hin.
  by apply negb_false_iff, bool_decide_eq_true, Hall.
Qed.

End Missing.

Section Updates.

Variable schema : Schema.

(** X20.  The request by which [syncIndexes] adds a missing index
    defines the key attributes of the index, each once, and nothing
    else; the index is created under the name of its parameters, with a
    write capacity that is never zero: its own if it has one, else one
    and a half times that of the table, rounded up, which is at least
    that of the table. *)
Theorem syncIndexes_index_request (tableName : string) (current : Z)
    (params : GlobalIndexParams) :
  let request := TableUpdates.indexCreation schema tableName current params in
  NoDup (definedNames (TableUpdates.AttributeDefinitions request))
  /\ (forall key,
        key ∈ definedNames (TableUpdates.AttributeDefinitions request)
        <-> key ∈ keyNames (keySchema (globalHashKey params)
                                      (globalRangeKey params)))
  /\ exists index throughput,
      TableUpdates.GlobalSecondaryIndexUpdates request
      = [TableUpdates.Create index]
      /\ IndexName index = name params
      /\ IndexKeySchema index
         = keySchema (globalHashKey params) (globalRangeKey params)
      /\ IndexThroughput index = Some throughput
      /\ WriteCapacityUnits throughput <> 0%Z
      /\ (forall own,
            globalWriteCapacity params = Some own -> own <> 0%Z ->
            WriteCapacityUnits throughput = own)
      /\ (TableUpdates.orElse (globalWriteCapacity params) 0 = 0%Z ->
          (0 < current)%Z ->
          WriteCapacityUnits throughput
          = TableUpdates.ceilOneAndAHalf current
          /\ (current <= WriteCapacityUnits throughput)%Z).
Proof.
  cbn zeta. unfold TableUpdates.indexCreation.
  cbn [TableUpdates.AttributeDefinitions TableUpdates.GlobalSecondaryIndexUpdates].
  destruct (defineGlobalKeys_adds schema [] params)
    as (added & E & Hnd & Hnew & Hall).
  change (attributeDefinition schema <$> []) with (@nil AttributeDefinition) in E.
  rewrite E. cbn [app]. rewrite definedNames_attributeDefinition.
  split_and!; [done| |].
  - intros key. split; [intros Hk; by destruct (Hnew key Hk)|apply Hall].
  - eexists _, _. split_and!; [done|done|done|done| | |].
    + apply orOne_nonzero.
    + intros own -> Hown.
      cbn [IndexThroughput globalIndex WriteCapacityUnits globalWriteCapacity].
      apply Z.eqb_neq in Hown. unfold TableUpdates.orElse, orOne.
      by rewrite !Hown.
    + intros Hnone Hpos.
      assert (Hceil : (current <= TableUpdates.ceilOneAndAHalf current)%Z).
      { unfold TableUpdates.ceilOneAndAHalf.
        apply Z.div_le_lower_bound; lia. }
      cbn [IndexThroughput globalIndex WriteCapacityUnits globalWriteCapacity].
      assert (Hnew' : TableUpdates.orElse (globalWriteCapacity params)
                        (TableUpdates.ceilOneAndAHalf current)
                      = TableUpdates.ceilOneAndAHalf current).
      { unfold TableUpdates.orElse in *.
        destruct (globalWriteCapacity params) as [n|]; [|done].
        by destruct (Z.eqb_spec n 0). }
      rewrite Hnew'. unfold orOne.
      destruct (Z.eqb_spec (TableUpdates.ceilOneAndAHalf current) 0);
        [lia|done].
Qed.

End Updates.

Import TableSamples.

Lemma createTable_leaves_no_index_missing_witness :
  findMissingGlobalIndexes gameScores
    (Some {| describedIndexes := Some ["GameTitleIndex"] |})
  = [].
Proof.
  apply (createTable_leaves_no_index_missing gameScores "gameScores"
           {| readCapacity := Some 5%Z; writeCapacity := Some 5%Z;
              streamSpecification := None |}).
  by repeat constructor.
Defined.

End TableFacts.

(** * Properties of the waterfall *)

Module WaterfallFacts.

Import Waterfall.

Section Engine.

Context {A G : Type}.
Variable undefined : A.

Implicit Types (fns listeners : list (A -> G -> G * Outcome A)) (g : G).

Lemma chain_app fns1 : forall fns2 output g,
  chain (fns1 ++ fns2) output g
  = match chain fns1 output g with
    | (g', Resolved output') => chain fns2 output' g'
    | (g', Rejected err) => (g', Rejected err)
    end.
Proof.
  induction fns1 as [|fn fns1 IH]; intros fns2 output g; [done|].
  cbn [app chain]. destruct (fn output g) as [g' [output'|err]]; [|done].
  apply IH.
Qed.

(** X19.  The hooks run after the start function in the order they were
    registered, each on the output of the one before, as long as they
    resolve: hooks that follow others run, on the output and in the
    state these left, only if these all resolved; after a rejection no
    further hook is called and the rejection is the outcome. *)
Theorem callBeforeHooks_in_order listeners1 listeners2 startFun g :
  callBeforeHooks undefined (listeners1 ++ listeners2) startFun g
  = match callBeforeHooks undefined listeners1 startFun g with
    | (g', Resolved output) => chain listeners2 output g'
    | (g', Rejected err) => (g', Rejected err)
    end.
Proof.
  unfold callBeforeHooks, waterfall.
  destruct (startFun undefined g) as [g' [output|err]]; [|done].
  apply chain_app.
Qed.

End Engine.

End WaterfallFacts.
